(** * plasma_core.transaction: the Plasma transaction record

    A shallow embedding of [plasma_core/transaction.py]: the fixed-arity
    [Transaction] record with its constructor, its RLP encoding through
    the [UnsignedTransaction] field list, its hashes, and the in-place
    [sign]/[confirm] slot updates.

    Python raises are modelled by the [result] type; the two mutating
    methods return the outcome together with the record after the call. *)

From Stdlib Require Import ZArith Lia Strings.Byte.
From stdpp Require Import base list strings.

Set Warnings "-register-all".
Local Open Scope Z_scope.

(** ** Byte strings *)

Abbreviation bytes := (list byte).

#[global] Instance byte_eq_decision : EqDecision byte := Byte.byte_eq_dec.

(** ** Exceptions *)

(** The exceptions the module can raise: [ValueError] from [pad_list],
    [IndexError] from a list subscript, [SerializationError] from the rlp
    sedes and [EncodingError] from the rlp encoder, [AddressError] for
    the "Invalid address format" exception of [utils.normalize_address],
    and [SignatureError] for whatever the signature helpers raise. *)
Inductive exn : Set :=
| ValueError
| IndexError
| SerializationError
| EncodingError
| AddressError
| SignatureError.

Inductive result (A : Type) : Type :=
| Ok (a : A)
| Raise (e : exn).
Arguments Ok {A} a.
Arguments Raise {A} e.

#[global] Instance result_ret : MRet result := fun A a => Ok a.
#[global] Instance result_bind : MBind result := fun A B f m =>
  match m with
  | Ok a => f a
  | Raise e => Raise e
  end.
#[global] Instance result_fmap : FMap result := fun A B f m =>
  match m with
  | Ok a => Ok (f a)
  | Raise e => Raise e
  end.

(** [[f(x) for x in l]] where [f] may raise: the first exception wins. *)
Definition comprehension {A B} (f : A → result B) : list A → result (list B) :=
  fix go (l : list A) : result (list B) :=
    match l with
    | [] => Ok []
    | x :: l' => y ← f x; ys ← go l'; Ok (y :: ys)
    end.

(** ** The rlp library, as far as [fields] and [rlp.encode] use it *)

(** What a sedes serializes to: a byte string or a list of items. *)
Inductive rlp_item : Type :=
| RBytes (b : bytes)
| RList (items : list rlp_item).

Definition byte_of_Z (n : Z) : byte :=
  default x00 (Byte.of_N (Z.to_N (n `mod` 256))).

(** Big-endian bytes of a non-negative integer, no leading zero byte;
    [0] is the empty string. *)
Fixpoint int_to_big_endian_aux (fuel : nat) (n : Z) (acc : bytes) : bytes :=
  match fuel with
  | O => acc
  | S fuel' =>
      if n <=? 0 then acc
      else int_to_big_endian_aux fuel' (n `div` 256) (byte_of_Z n :: acc)
  end.

Definition int_to_big_endian (n : Z) : bytes :=
  int_to_big_endian_aux (S (Z.to_nat (Z.log2 n))) n [].

(** The value of a big-endian byte string. *)
Fixpoint big_endian_to_int (b : bytes) : Z :=
  match b with
  | [] => 0
  | c :: b' =>
      Z.of_N (Byte.to_N c) * 256 ^ Z.of_nat (length b') + big_endian_to_int b'
  end.

Definition LONG_LENGTH : Z := 256 ^ 8.

Definition length_prefix (len : Z) (offset : Z) : result bytes :=
  if len <? 56 then Ok [byte_of_Z (offset + len)]
  else if len <? LONG_LENGTH then
    let length_string := int_to_big_endian len in
    Ok (byte_of_Z (offset + 56 - 1 + Z.of_nat (length length_string)) :: length_string)
  else Raise EncodingError.

Fixpoint encode_raw (item : rlp_item) : result bytes :=
  match item with
  | RBytes [c] =>
      if Z.of_N (Byte.to_N c) <? 128 then Ok [c]
      else prefix ← length_prefix 1 128; Ok (prefix ++ [c])
  | RBytes b =>
      prefix ← length_prefix (Z.of_nat (length b)) 128; Ok (prefix ++ b)
  | RList items =>
      encoded_items ← comprehension encode_raw items;
      let payload := concat encoded_items in
      prefix ← length_prefix (Z.of_nat (length payload)) 192; Ok (prefix ++ payload)
  end.

(** A sedes for values of type [A]. *)
Definition sedes (A : Type) : Type := A → result rlp_item.

Definition big_endian_int : sedes Z := fun n =>
  if n <? 0 then Raise SerializationError
  else Ok (RBytes (int_to_big_endian n)).

Definition binary : sedes bytes := fun b => Ok (RBytes b).

(** [utils.address = Binary.fixed_length(20, allow_empty=True)]. *)
Definition address : sedes bytes := fun b =>
  if bool_decide (length b = 20%nat ∨ length b = 0%nat) then Ok (RBytes b)
  else Raise SerializationError.

Definition CountableList {A} (element_sedes : sedes A) (max_length : nat)
  : sedes (list A) := fun l =>
  if bool_decide (max_length < length l)%nat then
    (* the element that overflows is serialized before the count is checked *)
    _ ← comprehension element_sedes (take (S max_length) l);
    Raise SerializationError
  else RList <$> comprehension element_sedes l.

(** One entry of a [fields] tuple: the attribute name and the sedes applied
    to [getattr(obj, name)]. *)
Definition field (Obj : Type) : Type := (string * (Obj → result rlp_item))%type.

Definition attr {Obj A} (name : string) (get : Obj → A) (s : sedes A) : field Obj :=
  (name, fun obj => s (get obj)).

(** [cls.serialize(obj)] for a [Serializable] class with these [fields]. *)
Definition Serializable_serialize {Obj} (fields : list (field Obj)) : sedes Obj :=
  fun obj => RList <$> comprehension (fun f => f.2 obj) fields.

(** [rlp.encode(obj, sedes)]. *)
Definition rlp_encode {Obj} (obj : Obj) (s : sedes Obj) : result bytes :=
  item ← s obj; encode_raw item.

(** ** Python list subscripts *)

(** [l[index] = x] for an int [index]: a negative index counts from the
    end, and an index that is still out of range raises [IndexError]. *)
Definition list_setitem {A} (l : list A) (index : Z) (x : A) : result (list A) :=
  let n := Z.of_nat (length l) in
  let i := if index <? 0 then index + n else index in
  if (i <? 0) || (n <=? i) then Raise IndexError
  else Ok (<[Z.to_nat i := x]> l).

(** [x or default] for a list [x]: the empty list is falsy. *)
Definition py_or {A} (x default : list A) : list A :=
  match x with
  | [] => default
  | _ :: _ => x
  end.

(** ** Imported names *)

(** What [transaction.py] imports and only calls: [utils.sha3] and
    [utils.normalize_address] of the [ethereum] package, [sign] and
    [get_signer] of [plasma_core.utils.signatures], and the two constants
    of [plasma_core.constants]. *)
Class Imports : Type := {
  sha3 : bytes → bytes;
  normalize_address : bytes → result bytes;
  sign : bytes → bytes → result bytes;
  get_signer : bytes → bytes → result bytes;
  NULL_SIGNATURE : bytes;
  NULL_ADDRESS : bytes
}.

(** ** pad_list *)

Definition pad_list {A} (to_pad : list A) (pad_value : A) (required_length : nat)
  : result (list A) :=
  if bool_decide (required_length < length to_pad)%nat then Raise ValueError
  else Ok (to_pad ++ replicate (required_length - length to_pad) pad_value).

(** ** TransactionInput and TransactionOutput *)

Record TransactionInput : Type := {
  blknum : Z;
  txindex : Z;
  oindex : Z
}.

Definition TransactionInput_fields : list (field TransactionInput) :=
  [ attr "blknum" blknum big_endian_int;
    attr "txindex" txindex big_endian_int;
    attr "oindex" oindex big_endian_int ].

(** [TransactionInput] applied to the unpacked triple [i]. *)
Definition TransactionInput_init (i : Z * Z * Z) : TransactionInput :=
  let '(blknum, txindex, oindex) := i in
  {| blknum := blknum; txindex := txindex; oindex := oindex |}.

Record TransactionOutput : Type := {
  owner : bytes;
  amount : Z
}.

Definition TransactionOutput_fields : list (field TransactionOutput) :=
  [ attr "owner" owner address;
    attr "amount" amount big_endian_int ].

(** ** Transaction *)

Record Transaction : Type := {
  inputs : list TransactionInput;
  outputs : list TransactionOutput;
  signatures : list bytes;
  confirmations : list bytes;
  spent : list bool
}.

Definition NUM_TXOS : nat := 2.
Definition DEFAULT_INPUT : Z * Z * Z := (0, 0, 0).

Definition Transaction_fields : list (field Transaction) :=
  [ attr "inputs" inputs
      (CountableList (Serializable_serialize TransactionInput_fields) NUM_TXOS);
    attr "outputs" outputs
      (CountableList (Serializable_serialize TransactionOutput_fields) NUM_TXOS);
    attr "signatures" signatures (CountableList binary NUM_TXOS) ].

(** [fields = Transaction.fields[:-1]]. *)
Definition UnsignedTransaction_fields : list (field Transaction) :=
  removelast Transaction_fields.

Definition set_signatures (l : list bytes) (self : Transaction) : Transaction :=
  {| inputs := inputs self; outputs := outputs self; signatures := l;
     confirmations := confirmations self; spent := spent self |}.

Definition set_confirmations (l : list bytes) (self : Transaction) : Transaction :=
  {| inputs := inputs self; outputs := outputs self; signatures := signatures self;
     confirmations := l; spent := spent self |}.

(** The lengths of the five sequences of a record. *)
Definition slot_counts (self : Transaction) : nat * nat * nat * nat * nat :=
  (length (inputs self), length (outputs self), length (signatures self),
   length (confirmations self), length (spent self)).

Section Transaction.
Context `{Imports}.

(** [TransactionOutput] applied to the unpacked pair [o]. *)
Definition TransactionOutput_init (o : bytes * Z) : result TransactionOutput :=
  let '(owner, amount) := o in
  owner ← normalize_address owner;
  Ok {| owner := owner; amount := amount |}.

Definition DEFAULT_OUTPUT : bytes * Z := (NULL_ADDRESS, 0).

(** [Transaction(inputs, outputs, signatures, confirmations)]; an
    argument that is [None] is one the caller left out, so that it takes
    its default value [[]]. *)
Definition Transaction_init
    (inputs : option (list (Z * Z * Z))) (outputs : option (list (bytes * Z)))
    (signatures confirmations : option (list bytes)) : result Transaction :=
  let inputs := py_or (default [] inputs) (replicate NUM_TXOS DEFAULT_INPUT) in
  let outputs := py_or (default [] outputs) (replicate NUM_TXOS DEFAULT_OUTPUT) in
  let signatures := py_or (default [] signatures) (replicate NUM_TXOS NULL_SIGNATURE) in
  let confirmations :=
    py_or (default [] confirmations) (replicate NUM_TXOS NULL_SIGNATURE) in
  padded_inputs ← pad_list inputs DEFAULT_INPUT NUM_TXOS;
  padded_outputs ← pad_list outputs DEFAULT_OUTPUT NUM_TXOS;
  let inputs' := TransactionInput_init <$> padded_inputs in
  outputs' ← comprehension TransactionOutput_init padded_outputs;
  Ok {| inputs := inputs'; outputs := outputs'; signatures := signatures;
        confirmations := confirmations; spent := replicate NUM_TXOS false |}.

Definition encoded (self : Transaction) : result bytes :=
  rlp_encode self (Serializable_serialize UnsignedTransaction_fields).

Definition joined_signatures (self : Transaction) : bytes :=
  concat (signatures self).

Definition joined_confirmations (self : Transaction) : bytes :=
  concat (confirmations self).

Definition merkle_leaf_data (self : Transaction) : result bytes :=
  e ← encoded self; Ok (e ++ joined_signatures self).

Definition hash (self : Transaction) : result bytes :=
  e ← encoded self; Ok (sha3 e).

Definition confirmation_hash (self : Transaction) : result bytes :=
  h ← hash self; Ok (sha3 h).

(** The body of the comprehension in [signers]; the hash is only
    computed for a slot that holds a signature. *)
Definition signer (self : Transaction) (sig : bytes) : result bytes :=
  if bool_decide (sig ≠ NULL_SIGNATURE) then h ← hash self; get_signer h sig
  else Ok NULL_ADDRESS.

Definition signers (self : Transaction) : result (list bytes) :=
  comprehension (signer self) (signatures self).

(** The relation between a slot's signature and its entry in [signers],
    as the specification words it. *)
Definition signer_of (self : Transaction) (sig addr : bytes) : Prop :=
  if decide (sig = NULL_SIGNATURE) then addr = NULL_ADDRESS
  else ∃ h, hash self = Ok h ∧ get_signer h sig = Ok addr.

Definition is_deposit (self : Transaction) : bool :=
  forallb (fun i => blknum i =? 0) (inputs self).

(** [self.sign(index, key)]: the outcome and the record after the call.
    The right-hand side is evaluated before the subscript is stored. *)
Definition Transaction_sign (self : Transaction) (index : Z) (key : bytes)
  : result unit * Transaction :=
  match h ← hash self; sign h key with
  | Raise e => (Raise e, self)
  | Ok s =>
      match list_setitem (signatures self) index s with
      | Raise e => (Raise e, self)
      | Ok l => (Ok (), set_signatures l self)
      end
  end.

Definition Transaction_confirm (self : Transaction) (index : Z) (key : bytes)
  : result unit * Transaction :=
  match h ← confirmation_hash self; sign h key with
  | Raise e => (Raise e, self)
  | Ok s =>
      match list_setitem (confirmations self) index s with
      | Raise e => (Raise e, self)
      | Ok l => (Ok (), set_confirmations l self)
      end
  end.

(** A call of one of the two mutating methods, and the record left by a
    sequence of such calls (a call that raises leaves it as it was). *)
Inductive call : Type :=
| call_sign (index : Z) (key : bytes)
| call_confirm (index : Z) (key : bytes).

Definition run_call (self : Transaction) (c : call) : Transaction :=
  match c with
  | call_sign index key => (Transaction_sign self index key).2
  | call_confirm index key => (Transaction_confirm self index key).2
  end.

Definition run_calls (self : Transaction) (calls : list call) : Transaction :=
  foldl run_call self calls.
End Transaction.

(** ** What the sedes of the unsigned fields accept *)

(** The records that [fields] can serialize, as conditions on the record:
    [big_endian_int] takes no negative integer, [utils.address] takes a
    string of 20 bytes or none, and [CountableList] takes at most
    [NUM_TXOS] elements. *)
Definition serializable_input (i : TransactionInput) : Prop :=
  0 ≤ blknum i ∧ 0 ≤ txindex i ∧ 0 ≤ oindex i.

Definition serializable_output (o : TransactionOutput) : Prop :=
  (length (owner o) = 20%nat ∨ length (owner o) = 0%nat) ∧ 0 ≤ amount o.

Definition serializable (self : Transaction) : Prop :=
  (length (inputs self) ≤ NUM_TXOS)%nat ∧
  (length (outputs self) ≤ NUM_TXOS)%nat ∧
  Forall serializable_input (inputs self) ∧
  Forall serializable_output (outputs self).

(** ** A sample instantiation of the imports, for concrete runs *)

Module Sample.
(** A stand-in for the hash: it only has to be some function on bytes. *)
Definition sha3 (b : bytes) : bytes := x53 :: rev b.

(** A 20-byte string is returned as it is; other lengths are refused. *)
Definition normalize_address (x : bytes) : result bytes :=
  if bool_decide (length x = 20%nat) then Ok x else Raise AddressError.

(** A stand-in signature scheme: the signature carries the signer's
    20-byte identity after the message, and ends in a recovery byte. *)
Definition sign (h key : bytes) : result bytes :=
  if bool_decide (length key = 20%nat) then Ok (h ++ key ++ [x1b])
  else Raise SignatureError.

Definition get_signer (h sig : bytes) : result bytes :=
  if bool_decide (take (length h) sig = h
                  ∧ length sig = (length h + 21)%nat) then
    Ok (take 20 (drop (length h) sig))
  else Raise SignatureError.

Definition imports : Imports :=
  Build_Imports sha3 normalize_address sign get_signer
    (replicate 65 x00) (replicate 20 x00).

Definition key1 : bytes := replicate 20 x11.
Definition owner1 : bytes := replicate 20 x22.

Definition zero_input : TransactionInput :=
  {| blknum := 0; txindex := 0; oindex := 0 |}.
Definition null_output : TransactionOutput :=
  {| owner := replicate 20 x00; amount := 0 |}.

(** The record [Transaction()] returns. *)
Definition tx0 : Transaction :=
  {| inputs := [zero_input; zero_input];
     outputs := [null_output; null_output];
     signatures := [replicate 65 x00; replicate 65 x00];
     confirmations := [replicate 65 x00; replicate 65 x00];
     spent := [false; false] |}.

(** The record [Transaction([(1, 2, 3)], [(owner1, 1000)], [b'\x01'])]
    returns: the single signature is kept as the whole list. *)
Definition tx1 : Transaction :=
  {| inputs := [{| blknum := 1; txindex := 2; oindex := 3 |}; zero_input];
     outputs := [{| owner := owner1; amount := 1000 |}; null_output];
     signatures := [[x01]];
     confirmations := [replicate 65 x00; replicate 65 x00];
     spent := [false; false] |}.

(** The encoding and the (stand-in) hashes of [tx0], and the signatures
    [key1] makes over them. *)
Definition e0 : bytes :=
  Eval vm_compute in match encoded tx0 with Ok e => e | Raise _ => [] end.
Definition h0 : bytes := Eval vm_compute in sha3 e0.
Definition s0 : bytes := Eval vm_compute in h0 ++ key1 ++ [x1b].
Definition c0 : bytes := Eval vm_compute in sha3 h0 ++ key1 ++ [x1b].

(** [tx0] after both of its owners signed, one confirmed in a list cut to
    one slot, and output 0 was spent. *)
Definition tx0_later : Transaction :=
  {| inputs := [zero_input; zero_input];
     outputs := [null_output; null_output];
     signatures := [s0; s0];
     confirmations := [c0];
     spent := [true; false] |}.

(** A record with a negative block number and no signature yet: the
    sedes refuse it, so that its encoding raises. *)
Definition tx_negative : Transaction :=
  {| inputs := [{| blknum := -1; txindex := 0; oindex := 0 |}; zero_input];
     outputs := [null_output; null_output];
     signatures := [replicate 65 x00; replicate 65 x00];
     confirmations := [replicate 65 x00; replicate 65 x00];
     spent := [false; false] |}.

(** A second key, the signature it makes over [h0], and an owner that
    [normalize_address] refuses. *)
Definition key2 : bytes := replicate 20 x33.
Definition s0' : bytes := Eval vm_compute in h0 ++ key2 ++ [x1b].
Definition short_owner : bytes := [x22; x22; x22].
End Sample.

Example int_to_big_endian_256 : int_to_big_endian 256 = [x01; x00].
Proof. reflexivity. Qed.

Example int_to_big_endian_0 : int_to_big_endian 0 = [].
Proof. reflexivity. Qed.

Example int_to_big_endian_65535 : int_to_big_endian 65535 = [xff; xff].
Proof. reflexivity. Qed.

(** ** Facts about the helpers *)

Lemma byte_of_Z_value (n : Z) : Z.of_N (Byte.to_N (byte_of_Z n)) = n `mod` 256.
Proof.
  unfold byte_of_Z.
  assert (Hn : 0 ≤ n `mod` 256 < 256) by (apply Z.mod_pos_bound; lia).
  destruct (Byte.of_N (Z.to_N (n `mod` 256))) as [c|] eqn:Hc; simpl.
  - apply Byte.to_of_N in Hc. rewrite Hc. lia.
  - apply Byte.of_N_None_iff in Hc. lia.
Qed.

Lemma int_to_big_endian_aux_value (fuel : nat) (n : Z) (acc : bytes) :
  0 ≤ n < 256 ^ Z.of_nat fuel →
  big_endian_to_int (int_to_big_endian_aux fuel n acc)
  = n * 256 ^ Z.of_nat (length acc) + big_endian_to_int acc.
Proof.
  revert n acc. induction fuel as [|fuel IH]; intros n acc Hn; simpl.
  - change (256 ^ Z.of_nat 0) with 1 in Hn. by replace n with 0 by lia.
  - destruct (n <=? 0) eqn:Hz; [apply Z.leb_le in Hz | apply Z.leb_gt in Hz].
    + by replace n with 0 by lia.
    + rewrite IH.
      * simpl big_endian_to_int. simpl length.
        rewrite byte_of_Z_value, Nat2Z.inj_succ, Z.pow_succ_r by lia.
        pose proof (Z.div_mod n 256 ltac:(lia)). nia.
      * rewrite Nat2Z.inj_succ, Z.pow_succ_r in Hn by lia.
        split; [apply Z.div_pos; lia | apply Z.div_lt_upper_bound; lia].
Qed.

(** The fuel [int_to_big_endian] starts with is enough: the bytes it
    returns have the value of the integer. *)
Lemma big_endian_to_int_of_int (n : Z) :
  0 ≤ n → big_endian_to_int (int_to_big_endian n) = n.
Proof.
  intros Hn. unfold int_to_big_endian.
  rewrite int_to_big_endian_aux_value; [simpl; lia|].
  split; [done|].
  destruct (decide (n = 0)) as [->|Hpos]; [done|].
  pose proof (Z.log2_spec n ltac:(lia)) as [_ Hlt].
  pose proof (Z.log2_nonneg n).
  rewrite Nat2Z.inj_succ, Z2Nat.id by done.
  eapply Z.lt_le_trans; [exact Hlt|].
  apply Z.pow_le_mono_l. lia.
Qed.

Lemma comprehension_Forall2 {A B} (f : A → result B) l l' :
  comprehension f l = Ok l' ↔ Forall2 (fun x y => f x = Ok y) l l'.
Proof.
  revert l'. induction l as [|x l IH]; intros l'; simpl.
  - split.
    + intros [= <-]. constructor.
    + intros Hl. by inversion Hl.
  - split.
    + destruct (f x) as [y|e] eqn:Hx; simpl; [|done].
      destruct (comprehension f l) as [ys|e] eqn:Hl; simpl; [|done].
      intros [= <-]. constructor; [done|]. by apply IH.
    + intros Hl. inversion Hl as [|? y ? ys Hx Hys]; subst.
      rewrite Hx. simpl. apply IH in Hys. by rewrite Hys.
Qed.

Lemma comprehension_length {A B} (f : A → result B) l l' :
  comprehension f l = Ok l' → length l' = length l.
Proof.
  intros Hl. apply comprehension_Forall2 in Hl.
  symmetry. by eapply Forall2_length.
Qed.

Lemma comprehension_app {A B} (f : A → result B) l1 l2 l1' l2' :
  comprehension f l1 = Ok l1' → comprehension f l2 = Ok l2' →
  comprehension f (l1 ++ l2) = Ok (l1' ++ l2').
Proof.
  rewrite !comprehension_Forall2. apply Forall2_app.
Qed.

Lemma comprehension_replicate {A B} (f : A → result B) n x y :
  f x = Ok y → comprehension f (replicate n x) = Ok (replicate n y).
Proof.
  intros Hx. induction n as [|n IH]; simpl; [done|].
  by rewrite Hx; simpl; rewrite IH.
Qed.

Lemma list_setitem_Ok {A} (l : list A) index x l' :
  list_setitem l index x = Ok l' →
  - Z.of_nat (length l) ≤ index < Z.of_nat (length l) ∧
  l' = <[Z.to_nat (index `mod` Z.of_nat (length l)) := x]> l.
Proof.
  unfold list_setitem.
  destruct (index <? 0) eqn:Hneg;
    [apply Z.ltb_lt in Hneg | apply Z.ltb_ge in Hneg].
  - destruct (_ || _) eqn:Hrange; [done|]. intros [= <-].
    apply orb_false_elim in Hrange as [H1%Z.ltb_ge H2%Z.leb_gt].
    split; [lia|]. do 2 f_equal.
    apply Z.mod_unique with (q := -1); lia.
  - destruct (_ || _) eqn:Hrange; [done|]. intros [= <-].
    apply orb_false_elim in Hrange as [H1%Z.ltb_ge H2%Z.leb_gt].
    split; [lia|]. do 2 f_equal.
    symmetry. apply Z.mod_small. lia.
Qed.

Lemma list_setitem_in_range {A} (l : list A) index x :
  0 ≤ index < Z.of_nat (length l) →
  list_setitem l index x = Ok (<[Z.to_nat index := x]> l).
Proof.
  intros Hi. unfold list_setitem.
  destruct (index <? 0) eqn:Hneg; [apply Z.ltb_lt in Hneg; lia|].
  destruct (_ || _) eqn:Hrange; [|done].
  apply orb_true_elim in Hrange as [H1%Z.ltb_lt | H2%Z.leb_le]; lia.
Qed.

Lemma list_setitem_out_of_range {A} (l : list A) index x :
  index < - Z.of_nat (length l) ∨ Z.of_nat (length l) ≤ index →
  list_setitem l index x = Raise IndexError.
Proof.
  intros Hi. unfold list_setitem.
  destruct (index <? 0) eqn:Hneg;
    [apply Z.ltb_lt in Hneg | apply Z.ltb_ge in Hneg].
  - destruct (_ || _) eqn:Hrange; [done|].
    apply orb_false_elim in Hrange as [H1%Z.ltb_ge H2%Z.leb_gt]. lia.
  - destruct (_ || _) eqn:Hrange; [done|].
    apply orb_false_elim in Hrange as [H1%Z.ltb_ge H2%Z.leb_gt]. lia.
Qed.

Lemma list_setitem_Raise {A} (l : list A) index x e :
  list_setitem l index x = Raise e →
  e = IndexError ∧
  (index < - Z.of_nat (length l) ∨ Z.of_nat (length l) ≤ index).
Proof.
  unfold list_setitem.
  destruct (index <? 0) eqn:Hneg;
    [apply Z.ltb_lt in Hneg | apply Z.ltb_ge in Hneg];
    (destruct (_ || _) eqn:Hrange; [|done]); intros [= <-];
    (split; [done|]);
    apply orb_true_elim in Hrange as [H1%Z.ltb_lt | H2%Z.leb_le]; lia.
Qed.

Lemma list_setitem_length {A} (l : list A) index x l' :
  list_setitem l index x = Ok l' → length l' = length l.
Proof.
  intros [_ ->]%list_setitem_Ok. apply length_insert.
Qed.

(** ** The encoding reads [inputs] and [outputs] only *)

Lemma UnsignedTransaction_fields_names :
  UnsignedTransaction_fields.*1 = ["inputs"; "outputs"].
Proof. reflexivity. Qed.

Lemma encoded_ext (tx tx' : Transaction) :
  inputs tx = inputs tx' → outputs tx = outputs tx' → encoded tx = encoded tx'.
Proof.
  intros Hi Ho. unfold encoded, rlp_encode, Serializable_serialize.
  unfold UnsignedTransaction_fields, Transaction_fields, attr.
  cbn [removelast comprehension snd]. by rewrite Hi, Ho.
Qed.

Section Frames.
Context `{Imports}.

Lemma hash_ext (tx tx' : Transaction) :
  inputs tx = inputs tx' → outputs tx = outputs tx' → hash tx = hash tx'.
Proof. intros Hi Ho. unfold hash. by rewrite (encoded_ext tx tx'). Qed.

Lemma confirmation_hash_ext (tx tx' : Transaction) :
  inputs tx = inputs tx' → outputs tx = outputs tx' →
  confirmation_hash tx = confirmation_hash tx'.
Proof. intros Hi Ho. unfold confirmation_hash. by rewrite (hash_ext tx tx'). Qed.

(** The two ways a call of [sign] can end. *)
Lemma Transaction_sign_inv (tx : Transaction) (index : Z) (key : bytes) :
  (∃ e, Transaction_sign tx index key = (Raise e, tx)) ∨
  (∃ h s l, hash tx = Ok h ∧ sign h key = Ok s ∧
     list_setitem (signatures tx) index s = Ok l ∧
     Transaction_sign tx index key = (Ok (), set_signatures l tx)).
Proof.
  unfold Transaction_sign.
  destruct (hash tx) as [h|e] eqn:Hh; simpl; [|by left; eexists].
  destruct (sign h key) as [s|e] eqn:Hs; [|by left; eexists].
  destruct (list_setitem (signatures tx) index s) as [l|e] eqn:Hl;
    [|by left; eexists].
  right. by exists h, s, l.
Qed.

Lemma Transaction_confirm_inv (tx : Transaction) (index : Z) (key : bytes) :
  (∃ e, Transaction_confirm tx index key = (Raise e, tx)) ∨
  (∃ h s l, confirmation_hash tx = Ok h ∧ sign h key = Ok s ∧
     list_setitem (confirmations tx) index s = Ok l ∧
     Transaction_confirm tx index key = (Ok (), set_confirmations l tx)).
Proof.
  unfold Transaction_confirm.
  destruct (confirmation_hash tx) as [h|e] eqn:Hh; simpl; [|by left; eexists].
  destruct (sign h key) as [s|e] eqn:Hs; [|by left; eexists].
  destruct (list_setitem (confirmations tx) index s) as [l|e] eqn:Hl;
    [|by left; eexists].
  right. by exists h, s, l.
Qed.

Lemma Transaction_sign_inputs_outputs (tx : Transaction) index key :
  inputs (Transaction_sign tx index key).2 = inputs tx ∧
  outputs (Transaction_sign tx index key).2 = outputs tx.
Proof.
  destruct (Transaction_sign_inv tx index key)
    as [[e ->]|(h & s & l & _ & _ & _ & ->)]; done.
Qed.

Lemma Transaction_confirm_inputs_outputs (tx : Transaction) index key :
  inputs (Transaction_confirm tx index key).2 = inputs tx ∧
  outputs (Transaction_confirm tx index key).2 = outputs tx.
Proof.
  destruct (Transaction_confirm_inv tx index key)
    as [[e ->]|(h & s & l & _ & _ & _ & ->)]; done.
Qed.

Lemma run_calls_inputs_outputs (tx : Transaction) (calls : list call) :
  inputs (run_calls tx calls) = inputs tx ∧
  outputs (run_calls tx calls) = outputs tx.
Proof.
  unfold run_calls. revert tx.
  induction calls as [|c calls IH]; intros tx; simpl; [done|].
  destruct (IH (run_call tx c)) as [-> ->].
  destruct c; simpl.
  - apply Transaction_sign_inputs_outputs.
  - apply Transaction_confirm_inputs_outputs.
Qed.

(** C1. The encoding of a transaction, and so its hash, is determined by
    its inputs and outputs: two records with the same inputs and outputs
    have the same [encoded] and [hash].  So replacing the signatures and
    the confirmations by any others, or calling [sign] or [confirm] with
    any index and key, once or any number of times, leaves [encoded] and
    [hash] as they were. *)
Theorem encoded_ignores_signatures_and_confirmations
    (tx : Transaction) (sigs confs : list bytes) (index : Z) (key : bytes)
    (calls : list call) :
  (∀ tx', inputs tx' = inputs tx → outputs tx' = outputs tx →
     encoded tx' = encoded tx ∧ hash tx' = hash tx) ∧
  encoded (set_signatures sigs (set_confirmations confs tx)) = encoded tx ∧
  hash (set_signatures sigs (set_confirmations confs tx)) = hash tx ∧
  encoded (Transaction_sign tx index key).2 = encoded tx ∧
  hash (Transaction_sign tx index key).2 = hash tx ∧
  encoded (Transaction_confirm tx index key).2 = encoded tx ∧
  hash (Transaction_confirm tx index key).2 = hash tx ∧
  encoded (run_calls tx calls) = encoded tx ∧
  hash (run_calls tx calls) = hash tx.
Proof.
  destruct (Transaction_sign_inputs_outputs tx index key) as [Hsi Hso].
  destruct (Transaction_confirm_inputs_outputs tx index key) as [Hci Hco].
  destruct (run_calls_inputs_outputs tx calls) as [Hri Hro].
  split; [by intros tx' Hi Ho; split; [apply encoded_ext | apply hash_ext]|].
  repeat split;
    first [ by apply encoded_ext | by apply hash_ext ].
Qed.

(** C2. The hash is the chain hash of the encoding, and the confirmation
    hash is the chain hash of the hash bytes, so of the encoding hashed
    twice; a failure to encode is passed on by both. *)
Theorem hash_and_confirmation_hash (tx : Transaction) :
  hash tx = sha3 <$> encoded tx ∧
  confirmation_hash tx = sha3 <$> hash tx ∧
  confirmation_hash tx = (λ e, sha3 (sha3 e)) <$> encoded tx.
Proof.
  unfold confirmation_hash, hash.
  by destruct (encoded tx).
Qed.

(** C4. For a transaction that encodes and has exactly two signature
    slots, the Merkle leaf data is the encoding followed by the first
    and then the second signature, with nothing in between. *)
Theorem merkle_leaf_data_two_slots (tx : Transaction) (e s0 s1 : bytes) :
  encoded tx = Ok e →
  signatures tx = [s0; s1] →
  joined_signatures tx = s0 ++ s1 ∧
  merkle_leaf_data tx = Ok (e ++ s0 ++ s1).
Proof.
  intros He Hs. unfold merkle_leaf_data, joined_signatures.
  rewrite He, Hs. simpl. by rewrite app_nil_r.
Qed.
End Frames.

(** ** Construction *)

Lemma py_or_padded {A} (l : list A) (d : A) (n : nat) :
  py_or l (replicate n d) ++ replicate (n - length (py_or l (replicate n d))) d
  = l ++ replicate (n - length l) d.
Proof.
  destruct l as [|x l]; simpl; [|done].
  by rewrite length_replicate, Nat.sub_diag, Nat.sub_0_r, app_nil_r.
Qed.

Lemma py_or_length_le {A} (l : list A) (d : A) (n : nat) :
  (length (py_or l (replicate n d)) ≤ n)%nat ↔ (length l ≤ n)%nat.
Proof.
  destruct l as [|x l]; simpl; [|done].
  rewrite length_replicate. lia.
Qed.

Lemma pad_list_py_or {A} (l : list A) (d : A) (n : nat) :
  pad_list (py_or l (replicate n d)) d n =
  if bool_decide (n < length l)%nat then Raise ValueError
  else Ok (l ++ replicate (n - length l) d).
Proof.
  unfold pad_list. rewrite py_or_padded.
  pose proof (py_or_length_le l d n).
  repeat case_bool_decide; done || lia.
Qed.

Lemma pad_list_length {A} (l l' : list A) (d : A) (n : nat) :
  pad_list l d n = Ok l' → length l' = n.
Proof.
  unfold pad_list. case_bool_decide; [done|]. intros [= <-].
  rewrite length_app, length_replicate. lia.
Qed.

Section Construction.
Context `{Imports}.

(** What a successful construction has computed. *)
Lemma Transaction_init_inv ins outs sigs confs (tx : Transaction) :
  Transaction_init ins outs sigs confs = Ok tx →
  (length (default [] ins) ≤ NUM_TXOS)%nat ∧
  (length (default [] outs) ≤ NUM_TXOS)%nat ∧
  inputs tx = TransactionInput_init <$>
    (default [] ins ++ replicate (NUM_TXOS - length (default [] ins)) DEFAULT_INPUT) ∧
  comprehension TransactionOutput_init
    (default [] outs ++ replicate (NUM_TXOS - length (default [] outs)) DEFAULT_OUTPUT)
    = Ok (outputs tx) ∧
  signatures tx = py_or (default [] sigs) (replicate NUM_TXOS NULL_SIGNATURE) ∧
  confirmations tx = py_or (default [] confs) (replicate NUM_TXOS NULL_SIGNATURE) ∧
  spent tx = replicate NUM_TXOS false.
Proof.
  unfold Transaction_init. rewrite !pad_list_py_or.
  repeat case_bool_decide; simpl; try done.
  destruct (comprehension _ _) as [outs'|e] eqn:Houts; simpl; [|done].
  intros [= <-]. simpl. repeat split; done || lia.
Qed.

Lemma TransactionOutput_init_default :
  normalize_address NULL_ADDRESS = Ok NULL_ADDRESS →
  TransactionOutput_init DEFAULT_OUTPUT = Ok {| owner := NULL_ADDRESS; amount := 0 |}.
Proof. intros Hn. unfold TransactionOutput_init, DEFAULT_OUTPUT. by rewrite Hn. Qed.

(** C5. Construction with more than [NUM_TXOS] inputs, or with more than
    [NUM_TXOS] outputs, raises [ValueError] whatever the other arguments
    are.  With at most [NUM_TXOS] of each, and owners that
    [normalize_address] accepts, it returns a record whose inputs are the
    given ones followed by zero inputs up to [NUM_TXOS] and whose outputs
    are the given ones followed by (null address, 0) outputs; a
    construction from one input has the zero input in slot 1. *)
Theorem Transaction_init_pads_or_raises
    (ins : list (Z * Z * Z)) (outs : list (bytes * Z)) (sigs confs : option (list bytes)) :
  ((NUM_TXOS < length ins)%nat →
     Transaction_init (Some ins) (Some outs) sigs confs = Raise ValueError) ∧
  ((NUM_TXOS < length outs)%nat →
     Transaction_init (Some ins) (Some outs) sigs confs = Raise ValueError) ∧
  (∀ outs',
     (length ins ≤ NUM_TXOS)%nat → (length outs ≤ NUM_TXOS)%nat →
     normalize_address NULL_ADDRESS = Ok NULL_ADDRESS →
     comprehension TransactionOutput_init outs = Ok outs' →
     ∃ tx, Transaction_init (Some ins) (Some outs) sigs confs = Ok tx ∧
       inputs tx = (TransactionInput_init <$> ins) ++
         replicate (NUM_TXOS - length ins) {| blknum := 0; txindex := 0; oindex := 0 |} ∧
       outputs tx = outs' ++
         replicate (NUM_TXOS - length outs) {| owner := NULL_ADDRESS; amount := 0 |} ∧
       (length ins = 1%nat →
        inputs tx !! 1%nat = Some {| blknum := 0; txindex := 0; oindex := 0 |})).
Proof.
  unfold Transaction_init. simpl default. rewrite !pad_list_py_or.
  split; [|split].
  - intros Hi. by rewrite (bool_decide_true (_ < length ins)%nat).
  - intros Ho. rewrite (bool_decide_true (_ < length outs)%nat) by done.
    by case_bool_decide.
  - intros outs' Hi Ho Hnull Houts.
    rewrite !bool_decide_false by lia. simpl.
    erewrite comprehension_app;
      [|done|by apply comprehension_replicate, TransactionOutput_init_default].
    simpl. eexists. split; [done|]. simpl.
    rewrite fmap_app, fmap_replicate. repeat split.
    intros Hlen. destruct ins as [|i [|??]]; done.
Qed.

Lemma Transaction_sign_slot_counts (tx : Transaction) index key :
  slot_counts (Transaction_sign tx index key).2 = slot_counts tx.
Proof.
  destruct (Transaction_sign_inv tx index key)
    as [[e ->]|(h & s & l & _ & _ & Hl & ->)]; [done|].
  unfold slot_counts. simpl. by rewrite (list_setitem_length _ _ _ _ Hl).
Qed.

Lemma Transaction_confirm_slot_counts (tx : Transaction) index key :
  slot_counts (Transaction_confirm tx index key).2 = slot_counts tx.
Proof.
  destruct (Transaction_confirm_inv tx index key)
    as [[e ->]|(h & s & l & _ & _ & Hl & ->)]; [done|].
  unfold slot_counts. simpl. by rewrite (list_setitem_length _ _ _ _ Hl).
Qed.

Lemma run_calls_slot_counts (tx : Transaction) (calls : list call) :
  slot_counts (run_calls tx calls) = slot_counts tx.
Proof.
  unfold run_calls. revert tx.
  induction calls as [|c calls IH]; intros tx; simpl; [done|].
  rewrite IH. destruct c; simpl.
  - apply Transaction_sign_slot_counts.
  - apply Transaction_confirm_slot_counts.
Qed.

(** C3 (as amended). A constructed transaction has exactly [NUM_TXOS]
    inputs, outputs and spent flags.  Its signatures are [NUM_TXOS] null
    signatures when the argument was left out or empty, and otherwise
    the caller's list as it is, element for element and in the same
    order, of whatever length; the same holds for the confirmations.  No
    sequence of [sign] and [confirm] calls changes any of the five
    lengths. *)
Theorem Transaction_slot_counts ins outs sigs confs (tx : Transaction)
    (calls : list call) :
  Transaction_init ins outs sigs confs = Ok tx →
  length (inputs tx) = NUM_TXOS ∧
  length (outputs tx) = NUM_TXOS ∧
  length (spent tx) = NUM_TXOS ∧
  signatures tx =
    match default [] sigs with
    | [] => replicate NUM_TXOS NULL_SIGNATURE
    | _ :: _ => default [] sigs
    end ∧
  confirmations tx =
    match default [] confs with
    | [] => replicate NUM_TXOS NULL_SIGNATURE
    | _ :: _ => default [] confs
    end ∧
  length (signatures tx) =
    match default [] sigs with [] => NUM_TXOS | _ :: _ => length (default [] sigs) end ∧
  length (confirmations tx) =
    match default [] confs with [] => NUM_TXOS | _ :: _ => length (default [] confs) end ∧
  slot_counts (run_calls tx calls) = slot_counts tx.
Proof.
  intros (Hi & Ho & -> & Houts & -> & -> & ->)%Transaction_init_inv.
  apply comprehension_length in Houts. rewrite Houts.
  rewrite length_fmap, !length_app, !length_replicate.
  repeat split; try lia;
    try (by destruct (default [] sigs));
    try (by destruct (default [] confs)).
  apply run_calls_slot_counts.
Qed.

(** C10. Leaving an argument of the constructor out is the same as
    passing the empty list for it, for each argument separately; and,
    [normalize_address] returning the null address as it is, both
    [Transaction()] and [Transaction([], [], [], [])] return the record of
    two zero inputs, two (null address, 0) outputs, two null signatures,
    two null confirmations and two unset spent flags. *)
Theorem Transaction_init_empty_is_omitted :
  (∀ ins outs sigs confs,
     Transaction_init (Some []) outs sigs confs = Transaction_init None outs sigs confs ∧
     Transaction_init ins (Some []) sigs confs = Transaction_init ins None sigs confs ∧
     Transaction_init ins outs (Some []) confs = Transaction_init ins outs None confs ∧
     Transaction_init ins outs sigs (Some []) = Transaction_init ins outs sigs None) ∧
  (normalize_address NULL_ADDRESS = Ok NULL_ADDRESS →
   Transaction_init (Some []) (Some []) (Some []) (Some []) =
     Transaction_init None None None None ∧
   Transaction_init None None None None = Ok
     {| inputs := replicate 2 {| blknum := 0; txindex := 0; oindex := 0 |};
        outputs := replicate 2 {| owner := NULL_ADDRESS; amount := 0 |};
        signatures := replicate 2 NULL_SIGNATURE;
        confirmations := replicate 2 NULL_SIGNATURE;
        spent := [false; false] |}).
Proof.
  split; [done|]. intros Hnull. split; [done|].
  unfold Transaction_init. simpl.
  unfold DEFAULT_OUTPUT, TransactionOutput_init. by rewrite Hnull.
Qed.

(** C8. [is_deposit] holds exactly when every input has block number 0.
    A transaction constructed without inputs, or with the empty list of
    inputs, is a deposit; and such a construction does return a record
    once [normalize_address] accepts the owners. *)
Theorem is_deposit_iff_all_blknum_zero (tx : Transaction) :
  (is_deposit tx = true ↔ Forall (λ i, blknum i = 0) (inputs tx)) ∧
  (∀ ins outs sigs confs tx',
     default [] ins = [] →
     Transaction_init ins outs sigs confs = Ok tx' →
     is_deposit tx' = true) ∧
  (∀ ins sigs confs,
     default [] ins = [] →
     normalize_address NULL_ADDRESS = Ok NULL_ADDRESS →
     ∃ tx', Transaction_init ins None sigs confs = Ok tx' ∧ is_deposit tx' = true).
Proof.
  assert (Hdep : ∀ ins outs sigs confs tx',
    default [] ins = [] → Transaction_init ins outs sigs confs = Ok tx' →
    is_deposit tx' = true).
  { intros ins outs sigs confs tx' Hins.
    intros (_ & _ & Hi & _)%Transaction_init_inv.
    unfold is_deposit. by rewrite Hi, Hins. }
  split; [|split; [done|]].
  - unfold is_deposit. induction (inputs tx) as [|i l IH]; simpl.
    + split; [constructor|done].
    + rewrite andb_true_iff, Forall_cons, IH, Z.eqb_eq. done.
  - intros ins sigs confs Hins Hnull.
    destruct (Transaction_init ins None sigs confs) as [tx'|e] eqn:Hinit.
    + exists tx'. split; [done|]. by eapply Hdep.
    + exfalso. revert Hinit. unfold Transaction_init. rewrite Hins. simpl.
      unfold DEFAULT_OUTPUT, TransactionOutput_init. by rewrite Hnull.
Qed.
End Construction.

(** ** Signing and confirming *)

Section Signing.
Context `{Imports}.

Lemma signer_Ok (tx : Transaction) (sig addr : bytes) :
  signer tx sig = Ok addr ↔ signer_of tx sig addr.
Proof.
  unfold signer, signer_of. case_bool_decide as Hsig.
  - rewrite decide_False by done.
    destruct (hash tx) as [h|e]; simpl.
    + split; [by exists h | by intros (? & [= <-] & ?)].
    + split; [done | by intros (? & ? & ?)].
  - rewrite decide_True by done.
    split; [by intros [= <-] | by intros ->].
Qed.

Lemma signers_Ok (tx : Transaction) (l : list bytes) :
  signers tx = Ok l ↔ Forall2 (signer_of tx) (signatures tx) l.
Proof.
  unfold signers. rewrite comprehension_Forall2.
  split; intros Hl; eapply Forall2_impl; try exact Hl;
    intros sig addr; apply signer_Ok.
Qed.

(** C7. [signers] returns a list [l] exactly when [l] has, slot by slot,
    the null address where the signature is the null signature and
    otherwise the address that [get_signer] recovers from the hash and
    the signature.  For a transaction with two slots whose slot 1 holds
    the null signature: after [sign(0, key)], where the signature made
    with [key] is not the null signature and recovers to [addr],
    [signers] is [addr] in slot 0 and the null address in slot 1. *)
Theorem signers_by_slot (tx : Transaction) (key h s addr sig0 : bytes) :
  (∀ l, signers tx = Ok l ↔ Forall2 (signer_of tx) (signatures tx) l) ∧
  (∀ l i sig, signers tx = Ok l → signatures tx !! i = Some sig →
     ∃ a, l !! i = Some a ∧ signer_of tx sig a) ∧
  (hash tx = Ok h → sign h key = Ok s → s ≠ NULL_SIGNATURE →
   get_signer h s = Ok addr →
   signatures tx = [sig0; NULL_SIGNATURE] →
   ∃ tx', Transaction_sign tx 0 key = (Ok (), tx') ∧
     signers tx' = Ok [addr; NULL_ADDRESS]).
Proof.
  split; [|split].
  - intros l. apply signers_Ok.
  - intros l i sig Hl Hi. apply signers_Ok in Hl.
    destruct (Forall2_lookup_l _ _ _ _ _ Hl Hi) as (a & Ha & Hsa). by exists a.
  - intros Hh Hs Hnn Hrec Hsigs.
    unfold Transaction_sign. rewrite Hh. simpl. rewrite Hs, Hsigs. simpl.
    eexists. split; [done|].
    apply signers_Ok. simpl.
    assert (Hh' : hash (set_signatures [s; NULL_SIGNATURE] tx) = Ok h)
      by (by rewrite <- Hh; apply hash_ext).
    repeat constructor; unfold signer_of.
    + rewrite decide_False by done. by exists h.
    + by rewrite decide_True.
Qed.

(** C9. A call of [sign] leaves inputs, outputs, spent flags and the
    confirmations as they were and keeps the number of signatures; for
    an index from 0 on, every signature slot but [index] is as it was,
    and when the index is in range and the signature is made, the call
    returns and slot [index] holds that signature.  The same holds for
    [confirm], with signatures and confirmations exchanged and the
    signature made over the confirmation hash. *)
Theorem sign_confirm_change_one_slot (tx : Transaction) (index : Z) (key : bytes) :
  (inputs (Transaction_sign tx index key).2 = inputs tx ∧
   outputs (Transaction_sign tx index key).2 = outputs tx ∧
   spent (Transaction_sign tx index key).2 = spent tx ∧
   confirmations (Transaction_sign tx index key).2 = confirmations tx ∧
   length (signatures (Transaction_sign tx index key).2) = length (signatures tx)) ∧
  (inputs (Transaction_confirm tx index key).2 = inputs tx ∧
   outputs (Transaction_confirm tx index key).2 = outputs tx ∧
   spent (Transaction_confirm tx index key).2 = spent tx ∧
   signatures (Transaction_confirm tx index key).2 = signatures tx ∧
   length (confirmations (Transaction_confirm tx index key).2)
     = length (confirmations tx)) ∧
  (0 ≤ index → ∀ j : nat, j ≠ Z.to_nat index →
     signatures (Transaction_sign tx index key).2 !! j = signatures tx !! j ∧
     confirmations (Transaction_confirm tx index key).2 !! j = confirmations tx !! j) ∧
  (∀ h s, 0 ≤ index < Z.of_nat (length (signatures tx)) →
     hash tx = Ok h → sign h key = Ok s →
     (Transaction_sign tx index key).1 = Ok () ∧
     signatures (Transaction_sign tx index key).2 !! Z.to_nat index = Some s) ∧
  (∀ h s, 0 ≤ index < Z.of_nat (length (confirmations tx)) →
     confirmation_hash tx = Ok h → sign h key = Ok s →
     (Transaction_confirm tx index key).1 = Ok () ∧
     confirmations (Transaction_confirm tx index key).2 !! Z.to_nat index = Some s).
Proof.
  split; [|split; [|split; [|split]]].
  - destruct (Transaction_sign_inv tx index key)
      as [[e ->]|(h & s & l & _ & _ & Hl & ->)]; [done|].
    simpl. by rewrite (list_setitem_length _ _ _ _ Hl).
  - destruct (Transaction_confirm_inv tx index key)
      as [[e ->]|(h & s & l & _ & _ & Hl & ->)]; [done|].
    simpl. by rewrite (list_setitem_length _ _ _ _ Hl).
  - intros Hi j Hj. split.
    + destruct (Transaction_sign_inv tx index key)
        as [[e ->]|(h & s & l & _ & _ & Hl & ->)]; [done|].
      simpl. apply list_setitem_Ok in Hl as [Hr ->].
      rewrite Z.mod_small by lia. by apply list_lookup_insert_ne.
    + destruct (Transaction_confirm_inv tx index key)
        as [[e ->]|(h & s & l & _ & _ & Hl & ->)]; [done|].
      simpl. apply list_setitem_Ok in Hl as [Hr ->].
      rewrite Z.mod_small by lia. by apply list_lookup_insert_ne.
  - intros h s Hi Hh Hs. unfold Transaction_sign.
    rewrite Hh. simpl. rewrite Hs, list_setitem_in_range by done. simpl.
    split; [done|]. apply list_lookup_insert_eq. lia.
  - intros h s Hi Hh Hs. unfold Transaction_confirm.
    rewrite Hh. simpl. rewrite Hs, list_setitem_in_range by done. simpl.
    split; [done|]. apply list_lookup_insert_eq. lia.
Qed.

End Signing.

(** ** Further properties of [pad_list] *)

(** X1. [pad_list] raises [ValueError] exactly when the list is longer
    than the required length.  When it returns, the result has exactly the
    required length, starts with the given list, and holds the pad value
    at every later index. *)
Theorem pad_list_result {A} (to_pad : list A) (pad_value : A) (required_length : nat) :
  (pad_list to_pad pad_value required_length = Raise ValueError ↔
     (required_length < length to_pad)%nat) ∧
  (∀ l, pad_list to_pad pad_value required_length = Ok l →
     length l = required_length ∧
     take (length to_pad) l = to_pad ∧
     (∀ i, (length to_pad ≤ i < required_length)%nat → l !! i = Some pad_value)).
Proof.
  unfold pad_list. case_bool_decide as Hlen.
  - split; [done|]. by intros l.
  - split; [split; [done|lia]|].
    intros l [= <-]. rewrite length_app, length_replicate, take_app_length.
    repeat split; [lia|].
    intros i Hi. rewrite lookup_app_r by lia.
    apply lookup_replicate_2. lia.
Qed.

(** X2. Padding is stable: a list that [pad_list] returned, and any list
    that already has the required length, is returned unchanged when it is
    padded to that length again, with whatever pad value. *)
Theorem pad_list_stable {A} (to_pad l : list A) (pad_value other : A)
    (required_length : nat) :
  (length to_pad = required_length →
     pad_list to_pad other required_length = Ok to_pad) ∧
  (pad_list to_pad pad_value required_length = Ok l →
     pad_list l other required_length = Ok l).
Proof.
  assert (Hfull : ∀ k : list A, length k = required_length →
            pad_list k other required_length = Ok k).
  { intros k Hk. unfold pad_list. rewrite bool_decide_false by lia.
    by rewrite Hk, Nat.sub_diag, app_nil_r. }
  split; [apply Hfull|].
  intros Hl. apply Hfull. by eapply pad_list_length.
Qed.

(** ** Further properties of [sign] and [confirm] *)

Lemma comprehension_ext {A B} (f g : A → result B) (l : list A) :
  (∀ x, f x = g x) → comprehension f l = comprehension g l.
Proof.
  intros Hfg. induction l as [|x l IH]; simpl; [done|].
  by rewrite Hfg, IH.
Qed.

Lemma list_setitem_same_length {A} (l l' : list A) index x :
  length l = length l' →
  match list_setitem l index x, list_setitem l' index x with
  | Ok k, Ok k' => ∃ i, k = <[i := x]> l ∧ k' = <[i := x]> l'
  | Raise e, Raise e' => e = e'
  | _, _ => False
  end.
Proof.
  intros Hlen. unfold list_setitem. rewrite <- Hlen.
  destruct (_ || _); [done|]. by eexists.
Qed.

Lemma list_setitem_nonneg {A} (l : list A) index x :
  0 ≤ index →
  list_setitem l index x =
  if bool_decide (index < Z.of_nat (length l)) then Ok (<[Z.to_nat index := x]> l)
  else Raise IndexError.
Proof.
  intros Hi. case_bool_decide.
  - by apply list_setitem_in_range.
  - apply list_setitem_out_of_range. lia.
Qed.

Section Composition.
Context `{Imports}.

Lemma signers_ext (tx tx' : Transaction) :
  inputs tx = inputs tx' → outputs tx = outputs tx' →
  signatures tx = signatures tx' → signers tx = signers tx'.
Proof.
  intros Hi Ho Hs. unfold signers. rewrite Hs.
  apply comprehension_ext. intros sig. unfold signer.
  by rewrite (hash_ext tx tx').
Qed.

(** The record a call of [sign] leaves, as one expression. *)
Lemma Transaction_sign_effect (tx : Transaction) (index : Z) (key : bytes) :
  (Transaction_sign tx index key).2 =
  match h ← hash tx; sign h key with
  | Ok s =>
      match list_setitem (signatures tx) index s with
      | Ok l => set_signatures l tx
      | Raise _ => tx
      end
  | Raise _ => tx
  end.
Proof.
  unfold Transaction_sign.
  destruct (h ← hash tx; sign h key) as [s|e]; [|done].
  by destruct (list_setitem (signatures tx) index s).
Qed.

Lemma Transaction_confirm_effect (tx : Transaction) (index : Z) (key : bytes) :
  (Transaction_confirm tx index key).2 =
  match h ← confirmation_hash tx; sign h key with
  | Ok s =>
      match list_setitem (confirmations tx) index s with
      | Ok l => set_confirmations l tx
      | Raise _ => tx
      end
  | Raise _ => tx
  end.
Proof.
  unfold Transaction_confirm.
  destruct (h ← confirmation_hash tx; sign h key) as [s|e]; [|done].
  by destruct (list_setitem (confirmations tx) index s).
Qed.

(** X3. Confirming never touches what is committed or derived from the
    signatures: after [confirm], with any index and key, the Merkle leaf
    data, the joined signatures, the signers and the deposit flag are as
    before.  Signing, in turn, leaves the joined confirmations, the
    confirmation hash and the deposit flag as they were. *)
Theorem confirm_and_sign_keep_derived_data
    (tx : Transaction) (index : Z) (key : bytes) :
  merkle_leaf_data (Transaction_confirm tx index key).2 = merkle_leaf_data tx ∧
  joined_signatures (Transaction_confirm tx index key).2 = joined_signatures tx ∧
  signers (Transaction_confirm tx index key).2 = signers tx ∧
  is_deposit (Transaction_confirm tx index key).2 = is_deposit tx ∧
  joined_confirmations (Transaction_sign tx index key).2 = joined_confirmations tx ∧
  confirmation_hash (Transaction_sign tx index key).2 = confirmation_hash tx ∧
  is_deposit (Transaction_sign tx index key).2 = is_deposit tx.
Proof.
  destruct (Transaction_confirm_inv tx index key)
    as [[e ->]|(h & s & l & _ & _ & _ & ->)];
  destruct (Transaction_sign_inv tx index key)
    as [[e' ->]|(h' & s' & l' & _ & _ & _ & ->)]; simpl;
  repeat split;
    first [ done | by apply signers_ext | by apply confirmation_hash_ext ].
Qed.

(** X4. How calls compose.  Signing a slot twice keeps only the second
    signature, when that one is made: the record is the one the second
    call alone would leave.  Two [sign] calls on different indices from 0
    on can be made in either order, and a [sign] call and a [confirm] call
    can always be made in either order. *)
Theorem sign_confirm_compose
    (tx : Transaction) (i j : Z) (k1 k2 : bytes) :
  (∀ h s2, hash tx = Ok h → sign h k2 = Ok s2 →
     (Transaction_sign (Transaction_sign tx i k1).2 i k2).2
     = (Transaction_sign tx i k2).2) ∧
  (0 ≤ i → 0 ≤ j → i ≠ j →
     (Transaction_sign (Transaction_sign tx i k1).2 j k2).2
     = (Transaction_sign (Transaction_sign tx j k2).2 i k1).2) ∧
  (Transaction_confirm (Transaction_sign tx i k1).2 j k2).2
  = (Transaction_sign (Transaction_confirm tx j k2).2 i k1).2.
Proof.
  split; [|split].
  - intros h s2 Hh Hs2.
    rewrite (Transaction_sign_effect _ i k2).
    assert (Hh1 : hash (Transaction_sign tx i k1).2 = Ok h).
    { rewrite <- Hh. apply hash_ext; apply Transaction_sign_inputs_outputs. }
    rewrite Hh1. simpl. rewrite Hs2.
    rewrite (Transaction_sign_effect tx i k2), Hh. simpl. rewrite Hs2.
    destruct (Transaction_sign_inv tx i k1)
      as [[e ->]|(h1 & s1 & l1 & _ & _ & Hl1 & ->)]; [done|]. simpl.
    pose proof (list_setitem_same_length l1 (signatures tx) i s2
                  (list_setitem_length _ _ _ _ Hl1)) as Hsame.
    apply list_setitem_Ok in Hl1 as [Hr ->].
    destruct (list_setitem (<[_ := s1]> (signatures tx)) i s2) as [k|e] eqn:Hk,
      (list_setitem (signatures tx) i s2) as [k'|e'] eqn:Hk'; try done.
    + apply list_setitem_Ok in Hk as [_ ->].
      apply list_setitem_Ok in Hk' as [_ ->].
      rewrite length_insert, list_insert_insert_eq. done.
    + apply list_setitem_Raise in Hk' as [_ Hout]. lia.
  - intros Hi Hj Hij.
    set (t1 := (Transaction_sign tx i k1).2).
    set (t2 := (Transaction_sign tx j k2).2).
    rewrite (Transaction_sign_effect t1 j k2), (Transaction_sign_effect t2 i k1).
    rewrite (hash_ext t1 tx), (hash_ext t2 tx)
      by apply Transaction_sign_inputs_outputs.
    subst t1 t2.
    rewrite (Transaction_sign_effect tx i k1), (Transaction_sign_effect tx j k2).
    destruct (hash tx) as [h|e]; simpl; [|done].
    destruct (sign h k1) as [s1|e1], (sign h k2) as [s2|e2]; simpl;
      rewrite ?list_setitem_nonneg by done;
      repeat (case_bool_decide; simpl in *; rewrite ?length_insert in * );
      try done; try lia.
    unfold set_signatures. simpl. f_equal.
    apply list_insert_insert_ne. lia.
  - set (t1 := (Transaction_sign tx i k1).2).
    set (t2 := (Transaction_confirm tx j k2).2).
    rewrite (Transaction_confirm_effect t1 j k2), (Transaction_sign_effect t2 i k1).
    rewrite (confirmation_hash_ext t1 tx)
      by apply Transaction_sign_inputs_outputs.
    rewrite (hash_ext t2 tx) by apply Transaction_confirm_inputs_outputs.
    subst t1 t2.
    rewrite (Transaction_sign_effect tx i k1), (Transaction_confirm_effect tx j k2).
    destruct (h ← hash tx; sign h k1) as [s1|?];
      destruct (h ← confirmation_hash tx; sign h k2) as [s2|?]; try done;
      try destruct (list_setitem (signatures tx) i s1) as [l1|?] eqn:Hl1; simpl;
      try destruct (list_setitem (confirmations tx) j s2) as [l2|?] eqn:Hl2; simpl;
      rewrite ?Hl1, ?Hl2; done.
Qed.
End Composition.

Lemma list_setitem_from_end {A} (l : list A) index x :
  0 ≤ index < Z.of_nat (length l) →
  list_setitem l (index - Z.of_nat (length l)) x = list_setitem l index x.
Proof.
  intros Hi. rewrite (list_setitem_in_range l index) by done.
  unfold list_setitem.
  destruct (index - Z.of_nat (length l) <? 0) eqn:Hneg;
    [|apply Z.ltb_ge in Hneg; lia].
  replace (index - Z.of_nat (length l) + Z.of_nat (length l)) with index by lia.
  destruct (_ || _) eqn:Hrange; [|done].
  apply orb_true_elim in Hrange as [H1%Z.ltb_lt | H2%Z.leb_le]; lia.
Qed.

Lemma comprehension_Raise {A B} (f : A → result B) (l : list A) (e : exn) :
  comprehension f l = Raise e ↔
  ∃ l1 x l2, l = l1 ++ x :: l2 ∧ f x = Raise e ∧ Forall (λ y, ∃ b, f y = Ok b) l1.
Proof.
  induction l as [|x l IH]; simpl.
  - split; [done|]. intros (l1 & y & l2 & Hl & _). by destruct l1.
  - destruct (f x) as [b|e'] eqn:Hx; simpl.
    + destruct (comprehension f l) as [bs|e'] eqn:Hl; simpl.
      * split; [done|]. intros (l1 & y & l2 & Heq & Hy & Hl1).
        destruct l1 as [|z l1]; simplify_eq/=; [congruence|].
        apply Forall_cons in Hl1 as [_ Hl1].
        assert (Ok bs = Raise e :> result (list B)); [|done].
        apply IH. by exists l1, y, l2.
      * split.
        -- intros [= ->].
           destruct (proj1 IH eq_refl) as (l1 & y & l2 & Heq & Hy & Hl1).
           exists (x :: l1), y, l2. subst l. repeat split; [done|].
           apply Forall_cons. split; [by exists b | done].
        -- intros (l1 & y & l2 & Heq & Hy & Hl1).
           destruct l1 as [|z l1]; simplify_eq/=; [congruence|].
           apply Forall_cons in Hl1 as [_ Hl1].
           apply IH. by exists l1, y, l2.
    + split.
      * intros [= ->]. exists [], x, l. by repeat split.
      * intros (l1 & y & l2 & Heq & Hy & Hl1).
        destruct l1 as [|z l1]; simplify_eq/=; [congruence|].
        apply Forall_cons in Hl1 as [[b Hb] _]. congruence.
Qed.

Section MoreSigning.
Context `{Imports}.

Lemma signer_of_ext (tx tx' : Transaction) (sig addr : bytes) :
  hash tx = hash tx' → signer_of tx sig addr ↔ signer_of tx' sig addr.
Proof. intros Hh. unfold signer_of. by rewrite Hh. Qed.

(** X5. A negative index counts signature slots from the end: for a slot
    number [index] in range, [sign(index - n, key)] with [n] the number of
    signature slots is the same call as [sign(index, key)]; and likewise
    [confirm] with the number of confirmation slots. *)
Theorem sign_confirm_index_from_end (tx : Transaction) (index : Z) (key : bytes) :
  (0 ≤ index < Z.of_nat (length (signatures tx)) →
     Transaction_sign tx (index - Z.of_nat (length (signatures tx))) key
     = Transaction_sign tx index key) ∧
  (0 ≤ index < Z.of_nat (length (confirmations tx)) →
     Transaction_confirm tx (index - Z.of_nat (length (confirmations tx))) key
     = Transaction_confirm tx index key).
Proof.
  split; intros Hi.
  - unfold Transaction_sign.
    destruct (h ← hash tx; sign h key) as [s|e]; [|done].
    by rewrite list_setitem_from_end.
  - unfold Transaction_confirm.
    destruct (h ← confirmation_hash tx; sign h key) as [s|e]; [|done].
    by rewrite list_setitem_from_end.
Qed.

(** X6. [signers] returns one address per signature slot.  When every
    slot holds the null signature it returns the null address for each
    slot without computing the hash, so also for a transaction whose
    encoding raises. *)
Theorem signers_of_unsigned (tx : Transaction) :
  (∀ l, signers tx = Ok l → length l = length (signatures tx)) ∧
  (Forall (λ sig, sig = NULL_SIGNATURE) (signatures tx) →
     signers tx = Ok (replicate (length (signatures tx)) NULL_ADDRESS)).
Proof.
  split.
  - intros l Hl. by apply comprehension_length in Hl.
  - unfold signers. generalize (signatures tx). intros sigs Hnull.
    induction Hnull as [|sig sigs -> _ IH]; simpl; [done|].
    replace (signer tx NULL_SIGNATURE) with (Ok NULL_ADDRESS : result bytes)
      by (unfold signer; by case_bool_decide).
    simpl. by rewrite IH.
Qed.

(** X7. Signing changes one entry of [signers]: when [signers] returned
    [l] before the call, the index is in range, and the signature made is
    not the null signature and recovers to [addr], then after
    [sign(index, key)] [signers] returns [l] with [addr] at [index]. *)
Theorem sign_updates_one_signer
    (tx : Transaction) (index : Z) (key h s addr : bytes) (l : list bytes) :
  hash tx = Ok h → sign h key = Ok s → s ≠ NULL_SIGNATURE →
  get_signer h s = Ok addr →
  signers tx = Ok l →
  0 ≤ index < Z.of_nat (length (signatures tx)) →
  signers (Transaction_sign tx index key).2 = Ok (<[Z.to_nat index := addr]> l).
Proof.
  intros Hh Hs Hnn Hrec Hl Hi.
  unfold Transaction_sign. rewrite Hh. simpl.
  rewrite Hs, list_setitem_in_range by done. simpl.
  set (tx' := set_signatures _ tx).
  assert (Hh' : hash tx = hash tx') by (by apply hash_ext).
  apply signers_Ok. apply signers_Ok in Hl. simpl.
  apply Forall2_insert.
  - eapply Forall2_impl; [exact Hl|].
    intros sig a Ha. by apply (signer_of_ext tx tx').
  - unfold signer_of. rewrite decide_False by done.
    exists h. by rewrite <- Hh'.
Qed.

(** X8. The right-hand side comes first: when the encoding raises, or
    the signature helper raises, [sign] and [confirm] raise that
    exception for every index, in range or not, and leave the record as
    it was; [hash], [confirmation_hash] and [merkle_leaf_data] raise the
    encoding's exception too. *)
Theorem sign_confirm_raise_before_index
    (tx : Transaction) (index : Z) (key : bytes) (e : exn) :
  (encoded tx = Raise e →
     hash tx = Raise e ∧ confirmation_hash tx = Raise e ∧
     merkle_leaf_data tx = Raise e ∧
     Transaction_sign tx index key = (Raise e, tx) ∧
     Transaction_confirm tx index key = (Raise e, tx)) ∧
  (∀ h, hash tx = Ok h → sign h key = Raise e →
     Transaction_sign tx index key = (Raise e, tx)) ∧
  (∀ h, confirmation_hash tx = Ok h → sign h key = Raise e →
     Transaction_confirm tx index key = (Raise e, tx)).
Proof.
  split; [|split].
  - intros He.
    unfold Transaction_sign, Transaction_confirm, confirmation_hash,
      merkle_leaf_data, hash.
    by rewrite He.
  - intros h Hh Hs. unfold Transaction_sign. rewrite Hh. simpl. by rewrite Hs.
  - intros h Hh Hs. unfold Transaction_confirm. rewrite Hh. simpl. by rewrite Hs.
Qed.
End MoreSigning.

(** ** Further properties of the constructor *)

Lemma forallb_fmap {A B} (f : B → bool) (g : A → B) (l : list A) :
  forallb f (g <$> l) = forallb (λ x, f (g x)) l.
Proof.
  induction l as [|x l IH]; [done|].
  rewrite fmap_cons. cbn [forallb]. by rewrite IH.
Qed.

Lemma forallb_replicate {A} (f : A → bool) (n : nat) (x : A) :
  f x = true → forallb f (replicate n x) = true.
Proof. intros Hx. induction n as [|n IH]; simpl; [done|]. by rewrite Hx, IH. Qed.

Section MoreConstruction.
Context `{Imports}.

Lemma TransactionOutput_init_Ok (o : bytes * Z) (r : TransactionOutput) :
  TransactionOutput_init o = Ok r ↔
  normalize_address o.1 = Ok (owner r) ∧ amount r = o.2.
Proof.
  destruct o as [a n], r as [a' n']. unfold TransactionOutput_init. simpl.
  destruct (normalize_address a) as [b|e]; simpl.
  - split; [by intros [= -> ->] | by intros [[= ->] ->]].
  - split; [done | by intros [? _]].
Qed.

Lemma TransactionOutput_init_Raise (o : bytes * Z) (e : exn) :
  TransactionOutput_init o = Raise e ↔ normalize_address o.1 = Raise e.
Proof.
  destruct o as [a n]. unfold TransactionOutput_init. simpl.
  destruct (normalize_address a) as [b|e']; simpl; [done|].
  split; by intros [= ->].
Qed.

(** X9. Padding never changes the deposit flag: a constructed
    transaction is a deposit exactly when every input triple given to the
    constructor has block number 0. *)
Theorem constructed_is_deposit ins outs sigs confs (tx : Transaction) :
  Transaction_init ins outs sigs confs = Ok tx →
  is_deposit tx = forallb (λ i : Z * Z * Z, i.1.1 =? 0) (default [] ins).
Proof.
  intros (_ & _ & Hi & _)%Transaction_init_inv.
  unfold is_deposit. rewrite Hi, forallb_fmap, forallb_app.
  rewrite (forallb_replicate _ _ DEFAULT_INPUT) by done.
  rewrite andb_true_r. clear Hi.
  induction (default [] ins) as [|[[b t] o] l IH]; simpl; [done|].
  by rewrite IH.
Qed.

(** X10. The constructor raises in two ways only.  It raises
    [ValueError] when more than [NUM_TXOS] inputs or outputs are given;
    otherwise it raises exactly what [normalize_address] raises on the
    first owner it refuses, going through the given outputs and then the
    (null address, 0) outputs that pad them. *)
Theorem Transaction_init_raises
    (ins : list (Z * Z * Z)) (outs : list (bytes * Z))
    (sigs confs : option (list bytes)) (e : exn) :
  Transaction_init (Some ins) (Some outs) sigs confs = Raise e ↔
  (e = ValueError ∧ (NUM_TXOS < length ins ∨ NUM_TXOS < length outs)%nat) ∨
  ((length ins ≤ NUM_TXOS)%nat ∧ (length outs ≤ NUM_TXOS)%nat ∧
   ∃ l1 o l2,
     outs ++ replicate (NUM_TXOS - length outs) DEFAULT_OUTPUT = l1 ++ o :: l2 ∧
     normalize_address o.1 = Raise e ∧
     Forall (λ y : bytes * Z, ∃ b, normalize_address y.1 = Ok b) l1).
Proof.
  unfold Transaction_init. simpl default. rewrite !pad_list_py_or.
  destruct (decide (NUM_TXOS < length ins)%nat) as [Hi|Hi].
  { rewrite (bool_decide_true (_ < length ins)%nat) by done. simpl.
    split; [intros [= <-]; left; split; [done|by left] | ].
    intros [[-> _]|(? & _)]; [done|lia]. }
  rewrite (bool_decide_false (_ < length ins)%nat) by done. simpl.
  destruct (decide (NUM_TXOS < length outs)%nat) as [Ho|Ho].
  { rewrite (bool_decide_true (_ < length outs)%nat) by done. simpl.
    split; [intros [= <-]; left; split; [done|by right] | ].
    intros [[-> _]|(_ & ? & _)]; [done|lia]. }
  rewrite (bool_decide_false (_ < length outs)%nat) by done. simpl.
  set (padded := outs ++ replicate (NUM_TXOS - length outs) DEFAULT_OUTPUT).
  destruct (comprehension TransactionOutput_init padded) as [outs'|e'] eqn:Hc; simpl.
  - split; [done|]. intros [[_ ?]|(_ & _ & l1 & o & l2 & Hp & Ho' & Hl1)]; [lia|].
    assert (Ok outs' = Raise e :> result (list TransactionOutput)); [|done].
    rewrite <- Hc. apply comprehension_Raise. exists l1, o, l2.
    split; [done|]. split; [by apply TransactionOutput_init_Raise|].
    eapply Forall_impl; [exact Hl1|]. intros [a n] [b Hb]. simpl in Hb.
    exists {| owner := b; amount := n |}. by apply TransactionOutput_init_Ok.
  - split.
    + intros [= ->]. right. split; [lia|]. split; [lia|].
      apply comprehension_Raise in Hc as (l1 & o & l2 & Hp & Ho' & Hl1).
      exists l1, o, l2. split; [done|].
      split; [by apply TransactionOutput_init_Raise|].
      eapply Forall_impl; [exact Hl1|]. intros y [r Hr].
      apply TransactionOutput_init_Ok in Hr as [Hr _]. by eexists.
    + intros [[_ ?]|(_ & _ & l1 & o & l2 & Hp & Ho' & Hl1)]; [lia|].
      assert (Raise e' = Raise e :> result (list TransactionOutput)) as [= ->];
        [|done].
      rewrite <- Hc. apply comprehension_Raise. exists l1, o, l2.
      split; [done|]. split; [by apply TransactionOutput_init_Raise|].
      eapply Forall_impl; [exact Hl1|]. intros [a n] [b Hb]. simpl in Hb.
      exists {| owner := b; amount := n |}. by apply TransactionOutput_init_Ok.
Qed.

(** X11. Signatures and confirmations given to the constructor are kept
    as they are, neither padded nor cut nor checked: a non-empty list is
    the record's list, whatever its length, and the joined signatures are
    the concatenation of the given ones.  The owners of the outputs are
    what [normalize_address] returned for the given owners, in order. *)
Theorem Transaction_init_keeps_what_is_given
    ins (outs : list (bytes * Z)) (sigs confs : list bytes) (tx : Transaction) :
  Transaction_init ins (Some outs) (Some sigs) (Some confs) = Ok tx →
  (sigs ≠ [] → signatures tx = sigs ∧ joined_signatures tx = concat sigs) ∧
  (confs ≠ [] → confirmations tx = confs ∧ joined_confirmations tx = concat confs) ∧
  Forall2 (λ (o : bytes * Z) (r : TransactionOutput),
             normalize_address o.1 = Ok (owner r) ∧ amount r = o.2)
    outs (take (length outs) (outputs tx)).
Proof.
  intros (_ & _ & _ & Houts & Hs & Hc & _)%Transaction_init_inv.
  simpl in *. unfold joined_signatures, joined_confirmations. rewrite Hs, Hc.
  split; [by destruct sigs|]. split; [by destruct confs|].
  apply comprehension_Forall2 in Houts.
  apply Forall2_app_inv_l in Houts as (k1 & k2 & Hk1 & _ & ->).
  rewrite (Forall2_length _ _ _ Hk1), take_app_length.
  eapply Forall2_impl; [exact Hk1|].
  intros o r. apply TransactionOutput_init_Ok.
Qed.
End MoreConstruction.

(** ** When the encoding raises *)

Lemma comprehension_accepts {A B} (f : A → result B) (P : A → Prop) (l : list A) :
  (∀ x, (P x ∧ ∃ b, f x = Ok b) ∨ (¬ P x ∧ f x = Raise SerializationError)) →
  (Forall P l ∧ ∃ bs, comprehension f l = Ok bs) ∨
  (¬ Forall P l ∧ comprehension f l = Raise SerializationError).
Proof.
  intros Hf. induction l as [|x l IH]; simpl.
  - left. split; [constructor | by eexists].
  - destruct (Hf x) as [[Hx [b ->]]|[Hx ->]]; simpl.
    + destruct IH as [[Hl [bs ->]]|[Hl ->]]; simpl.
      * left. split; [by constructor | by eexists].
      * right. split; [|done]. by intros [_ ?]%Forall_cons.
    + right. split; [|done]. by intros [? _]%Forall_cons.
Qed.

Lemma CountableList_accepts {A} (f : sedes A) (P : A → Prop) (n : nat) (l : list A) :
  (∀ x, (P x ∧ ∃ b, f x = Ok b) ∨ (¬ P x ∧ f x = Raise SerializationError)) →
  (((length l ≤ n)%nat ∧ Forall P l) ∧ ∃ item, CountableList f n l = Ok item) ∨
  (¬ ((length l ≤ n)%nat ∧ Forall P l) ∧
   CountableList f n l = Raise SerializationError).
Proof.
  intros Hf. unfold CountableList. case_bool_decide as Hlen.
  - right. split; [intros [? _]; lia|].
    by destruct (comprehension_accepts f P (take (S n) l) Hf)
      as [[_ [bs ->]]|[_ ->]].
  - destruct (comprehension_accepts f P l Hf) as [[Hl [bs ->]]|[Hl ->]]; simpl.
    + left. split; [split; [lia|done] | by eexists].
    + right. split; [by intros [_ ?] | done].
Qed.

Lemma big_endian_int_accepts (n : Z) :
  (0 ≤ n ∧ ∃ b, big_endian_int n = Ok b) ∨
  (¬ 0 ≤ n ∧ big_endian_int n = Raise SerializationError).
Proof.
  unfold big_endian_int.
  destruct (n <? 0) eqn:Hn; [apply Z.ltb_lt in Hn | apply Z.ltb_ge in Hn].
  - right. split; [lia|done].
  - left. split; [done | by eexists].
Qed.

Lemma address_accepts (b : bytes) :
  ((length b = 20%nat ∨ length b = 0%nat) ∧ ∃ item, address b = Ok item) ∨
  (¬ (length b = 20%nat ∨ length b = 0%nat) ∧
   address b = Raise SerializationError).
Proof.
  unfold address. case_bool_decide.
  - left. split; [done | by eexists].
  - by right.
Qed.

Lemma TransactionInput_accepts (i : TransactionInput) :
  (serializable_input i ∧
   ∃ b, Serializable_serialize TransactionInput_fields i = Ok b) ∨
  (¬ serializable_input i ∧
   Serializable_serialize TransactionInput_fields i = Raise SerializationError).
Proof.
  unfold Serializable_serialize, TransactionInput_fields, attr, serializable_input.
  simpl.
  destruct (big_endian_int_accepts (blknum i)) as [[? [? ->]]|[? ->]]; simpl;
    [|right; split; [tauto|done]].
  destruct (big_endian_int_accepts (txindex i)) as [[? [? ->]]|[? ->]]; simpl;
    [|right; split; [tauto|done]].
  destruct (big_endian_int_accepts (oindex i)) as [[? [? ->]]|[? ->]]; simpl;
    [|right; split; [tauto|done]].
  left. split; [done | by eexists].
Qed.

Lemma TransactionOutput_accepts (o : TransactionOutput) :
  (serializable_output o ∧
   ∃ b, Serializable_serialize TransactionOutput_fields o = Ok b) ∨
  (¬ serializable_output o ∧
   Serializable_serialize TransactionOutput_fields o = Raise SerializationError).
Proof.
  unfold Serializable_serialize, TransactionOutput_fields, attr, serializable_output.
  simpl.
  destruct (address_accepts (owner o)) as [[? [? ->]]|[? ->]]; simpl;
    [|right; split; [tauto|done]].
  destruct (big_endian_int_accepts (amount o)) as [[? [? ->]]|[? ->]]; simpl;
    [|right; split; [tauto|done]].
  left. split; [done | by eexists].
Qed.

Lemma UnsignedTransaction_accepts (tx : Transaction) :
  (serializable tx ∧
   ∃ item, Serializable_serialize UnsignedTransaction_fields tx = Ok item) ∨
  (¬ serializable tx ∧
   Serializable_serialize UnsignedTransaction_fields tx = Raise SerializationError).
Proof.
  unfold Serializable_serialize, UnsignedTransaction_fields, Transaction_fields,
    attr, serializable.
  cbn [removelast comprehension snd].
  destruct (CountableList_accepts (Serializable_serialize TransactionInput_fields)
              serializable_input NUM_TXOS (inputs tx) TransactionInput_accepts)
    as [[[? ?] [? ->]]|[? ->]]; simpl; [|right; split; [tauto|done]].
  destruct (CountableList_accepts (Serializable_serialize TransactionOutput_fields)
              serializable_output NUM_TXOS (outputs tx) TransactionOutput_accepts)
    as [[[? ?] [? ->]]|[? ->]]; simpl; [|right; split; [tauto|done]].
  left. split; [done | by eexists].
Qed.

Lemma length_prefix_Raise (len offset : Z) (e : exn) :
  length_prefix len offset = Raise e → e = EncodingError.
Proof.
  unfold length_prefix. destruct (len <? 56); [done|].
  destruct (len <? LONG_LENGTH); [done|]. by intros [= <-].
Qed.

Lemma encode_raw_Raise (item : rlp_item) (e : exn) :
  encode_raw item = Raise e → e = EncodingError.
Proof.
  revert item e. fix IH 1. intros [b|items] e.
  - destruct b as [|c [|c' b]]; cbn [encode_raw];
      try destruct (_ <? 128); try done;
      (destruct (length_prefix _ _) eqn:Hp; simpl; [done|]);
      intros [= <-]; by eapply length_prefix_Raise.
  - cbn [encode_raw].
    assert (Hitems : ∀ e', comprehension encode_raw items = Raise e' →
                     e' = EncodingError).
    { induction items as [|it items IHitems]; simpl; [done|].
      intros e'. destruct (encode_raw it) as [b|e''] eqn:Hit; simpl.
      - destruct (comprehension encode_raw items) eqn:Hc; simpl; [done|].
        intros [= <-]. by apply IHitems.
      - intros [= <-]. by apply (IH it). }
    destruct (comprehension encode_raw items) as [es|e'] eqn:Hc; simpl.
    + destruct (length_prefix _ _) eqn:Hp; simpl; [done|].
      intros [= <-]. by eapply length_prefix_Raise.
    + intros [= <-]. by apply Hitems.
Qed.

(** X12. [encoded] raises [SerializationError] exactly for a record that
    the sedes of the unsigned fields refuse: one with more than
    [NUM_TXOS] inputs or outputs, a negative block number, transaction
    index, output index or amount, or an owner that is neither 20 bytes
    nor empty.  The only other exception it can raise is the encoder's
    [EncodingError]. *)
Theorem encoded_raises_iff_not_serializable (tx : Transaction) :
  (encoded tx = Raise SerializationError ↔ ¬ serializable tx) ∧
  (∀ e, encoded tx = Raise e → e = SerializationError ∨ e = EncodingError).
Proof.
  unfold encoded, rlp_encode.
  destruct (UnsignedTransaction_accepts tx) as [[Hs [item ->]]|[Hs ->]]; simpl.
  - split.
    + split; [|done]. by intros ?%encode_raw_Raise.
    + intros e ?%encode_raw_Raise. by right.
  - split; [done|]. intros e [= <-]. by left.
Qed.

(** ** When the encoding returns *)

Lemma int_to_big_endian_aux_length (fuel : nat) (n : Z) (acc : bytes) (k : nat) :
  0 ≤ n < 256 ^ Z.of_nat k →
  (length (int_to_big_endian_aux fuel n acc) ≤ k + length acc)%nat.
Proof.
  revert n acc k. induction fuel as [|fuel IH]; intros n acc k Hn; simpl; [lia|].
  destruct (n <=? 0) eqn:Hz; [lia|]. apply Z.leb_gt in Hz.
  destruct k as [|k]; [change (256 ^ Z.of_nat 0) with 1 in Hn; lia|].
  rewrite Nat2Z.inj_succ, Z.pow_succ_r in Hn by lia.
  specialize (IH (n `div` 256) (byte_of_Z n :: acc) k). simpl in IH.
  etrans; [apply IH|lia].
  split; [apply Z.div_pos; lia | apply Z.div_lt_upper_bound; lia].
Qed.

Lemma int_to_big_endian_length (n : Z) (k : nat) :
  0 ≤ n < 256 ^ Z.of_nat k → (length (int_to_big_endian n) ≤ k)%nat.
Proof.
  intros Hn. unfold int_to_big_endian.
  pose proof (int_to_big_endian_aux_length
                (S (Z.to_nat (Z.log2 n))) n [] k Hn) as Hlen.
  change (length (@nil byte)) with 0%nat in Hlen. lia.
Qed.

Lemma LONG_LENGTH_value : LONG_LENGTH = 18446744073709551616.
Proof. reflexivity. Qed.

Lemma length_prefix_Ok (len offset : Z) :
  0 ≤ len < LONG_LENGTH →
  ∃ p, length_prefix len offset = Ok p ∧ (length p ≤ 9)%nat.
Proof.
  intros Hlen. unfold length_prefix.
  destruct (len <? 56); [eexists; split; [done|simpl; lia]|].
  destruct (len <? LONG_LENGTH) eqn:Hlt; [|apply Z.ltb_ge in Hlt; lia].
  eexists. split; [done|]. simpl.
  pose proof (int_to_big_endian_length len 8 Hlen). lia.
Qed.

Lemma encode_raw_bytes_Ok (b : bytes) :
  Z.of_nat (length b) < LONG_LENGTH →
  ∃ e, encode_raw (RBytes b) = Ok e ∧ (length e ≤ length b + 9)%nat.
Proof.
  intros Hb.
  assert (Hgen : ∃ e, (p ← length_prefix (Z.of_nat (length b)) 128; Ok (p ++ b))
                      = Ok e ∧ (length e ≤ length b + 9)%nat).
  { destruct (length_prefix_Ok (Z.of_nat (length b)) 128) as (p & -> & Hp); [lia|].
    simpl. eexists. split; [done|]. rewrite length_app. lia. }
  destruct b as [|c [|c' b]]; cbn [encode_raw]; try exact Hgen.
  destruct (_ <? 128); [|exact Hgen].
  eexists. split; [done|]. simpl. lia.
Qed.

Lemma encode_raw_list_Ok (items : list rlp_item) (bound : nat) :
  Forall (λ it, ∃ e, encode_raw it = Ok e ∧ (length e ≤ bound)%nat) items →
  Z.of_nat (length items * bound) < LONG_LENGTH →
  ∃ e, encode_raw (RList items) = Ok e ∧
       (length e ≤ length items * bound + 9)%nat.
Proof.
  intros Hitems Hbound. cbn [encode_raw].
  assert (Hes : ∃ es, comprehension encode_raw items = Ok es ∧
                      (length (concat es) ≤ length items * bound)%nat).
  { clear Hbound. induction Hitems as [|it items (e & He & Hlen) _ (es & Hes & Hl)];
      simpl; [by exists []|].
    rewrite He. simpl. rewrite Hes. simpl.
    eexists. split; [done|]. simpl. rewrite length_app. lia. }
  destruct Hes as (es & -> & Hl). simpl.
  destruct (length_prefix_Ok (Z.of_nat (length (concat es))) 192)
    as (p & -> & Hp); [lia|].
  simpl. eexists. split; [done|]. rewrite length_app. lia.
Qed.

Lemma big_endian_int_Ok (n : Z) :
  0 ≤ n < 2 ^ 256 →
  ∃ b, big_endian_int n = Ok (RBytes b) ∧ (length b ≤ 32)%nat.
Proof.
  intros Hn. unfold big_endian_int.
  destruct (n <? 0) eqn:Hneg; [apply Z.ltb_lt in Hneg; lia|].
  eexists. split; [done|]. by apply int_to_big_endian_length.
Qed.

Lemma comprehension_Forall_Ok {A B} (f : A → result B) (Q : B → Prop) (l : list A) :
  Forall (λ x, ∃ b, f x = Ok b ∧ Q b) l →
  ∃ bs, comprehension f l = Ok bs ∧ Forall Q bs ∧ length bs = length l.
Proof.
  induction 1 as [|x l (b & Hb & HQ) _ (bs & Hbs & HQs & Hlen)]; simpl.
  - by exists [].
  - rewrite Hb. simpl. rewrite Hbs. simpl. eexists. split; [done|].
    split; [by constructor | simpl; lia].
Qed.

Lemma short_bytes_encode (b : bytes) :
  (length b ≤ 32)%nat →
  ∃ e, encode_raw (RBytes b) = Ok e ∧ (length e ≤ 41)%nat.
Proof.
  intros Hb. destruct (encode_raw_bytes_Ok b) as (e & He & Hlen).
  - rewrite LONG_LENGTH_value. lia.
  - exists e. split; [done|lia].
Qed.

Lemma TransactionInput_encodes (i : TransactionInput) :
  serializable_input i →
  blknum i < 2 ^ 256 ∧ txindex i < 2 ^ 256 ∧ oindex i < 2 ^ 256 →
  ∃ item, Serializable_serialize TransactionInput_fields i = Ok item ∧
    ∃ e, encode_raw item = Ok e ∧ (length e ≤ 132)%nat.
Proof.
  intros (Hb & Ht & Ho) (Hb' & Ht' & Ho').
  unfold Serializable_serialize, TransactionInput_fields, attr. simpl.
  destruct (big_endian_int_Ok (blknum i)) as (b1 & -> & H1); [done|].
  destruct (big_endian_int_Ok (txindex i)) as (b2 & -> & H2); [done|].
  destruct (big_endian_int_Ok (oindex i)) as (b3 & -> & H3); [done|].
  simpl. eexists. split; [done|].
  destruct (encode_raw_list_Ok [RBytes b1; RBytes b2; RBytes b3] 41)
    as (e & He & Hlen).
  - repeat constructor; by apply short_bytes_encode.
  - rewrite LONG_LENGTH_value. simpl. lia.
  - exists e. split; [done|]. simpl in Hlen. lia.
Qed.

Lemma TransactionOutput_encodes (o : TransactionOutput) :
  serializable_output o → amount o < 2 ^ 256 →
  ∃ item, Serializable_serialize TransactionOutput_fields o = Ok item ∧
    ∃ e, encode_raw item = Ok e ∧ (length e ≤ 132)%nat.
Proof.
  intros (Hlen & Ha) Ha'.
  unfold Serializable_serialize, TransactionOutput_fields, attr. simpl.
  unfold address at 1. rewrite bool_decide_true by done.
  destruct (big_endian_int_Ok (amount o)) as (b2 & -> & H2); [done|].
  simpl. eexists. split; [done|].
  destruct (encode_raw_list_Ok [RBytes (owner o); RBytes b2] 41)
    as (e & He & Hl).
  - repeat constructor; apply short_bytes_encode; lia.
  - rewrite LONG_LENGTH_value. simpl. lia.
  - exists e. split; [done|]. simpl in Hl. lia.
Qed.

Lemma CountableList_encodes {A} (f : sedes A) (l : list A) :
  (length l ≤ NUM_TXOS)%nat →
  Forall (λ x, ∃ item, f x = Ok item ∧
               ∃ e, encode_raw item = Ok e ∧ (length e ≤ 132)%nat) l →
  ∃ item, CountableList f NUM_TXOS l = Ok item ∧
    ∃ e, encode_raw item = Ok e ∧ (length e ≤ 273)%nat.
Proof.
  intros Hlen Hl. unfold CountableList. rewrite bool_decide_false by lia.
  apply comprehension_Forall_Ok in Hl as (items & -> & Hitems & Hlen').
  simpl. eexists. split; [done|].
  destruct (encode_raw_list_Ok items 132 Hitems) as (e & He & Hle).
  - rewrite LONG_LENGTH_value. unfold NUM_TXOS in Hlen. lia.
  - exists e. split; [done|]. unfold NUM_TXOS in Hlen. lia.
Qed.

Section Encoding.
Context `{Imports}.

(** X13. [encoded] returns for every record that the sedes accept and
    whose integers fit 256 bits: at most [NUM_TXOS] inputs and outputs,
    block numbers, indices and amounts from 0 up to 2^256 - 1, and owners
    of 20 bytes or none.  Then [hash], [confirmation_hash] and
    [merkle_leaf_data] return too, and the encoding is at most 555 bytes
    long. *)
Theorem encoded_returns (tx : Transaction) :
  serializable tx →
  Forall (λ i, blknum i < 2 ^ 256 ∧ txindex i < 2 ^ 256 ∧ oindex i < 2 ^ 256)
    (inputs tx) →
  Forall (λ o, amount o < 2 ^ 256) (outputs tx) →
  ∃ e, encoded tx = Ok e ∧ (length e ≤ 555)%nat ∧
       hash tx = Ok (sha3 e) ∧
       confirmation_hash tx = Ok (sha3 (sha3 e)) ∧
       merkle_leaf_data tx = Ok (e ++ joined_signatures tx).
Proof.
  intros (Hli & Hlo & Hi & Ho) Hbi Hbo.
  assert (Hins : ∃ item,
    CountableList (Serializable_serialize TransactionInput_fields) NUM_TXOS
      (inputs tx) = Ok item ∧
    ∃ e, encode_raw item = Ok e ∧ (length e ≤ 273)%nat).
  { apply CountableList_encodes; [done|].
    apply Forall_forall. intros i Hin.
    apply TransactionInput_encodes.
    - by eapply Forall_forall in Hi.
    - by eapply (proj1 (Forall_forall _ _) Hbi). }
  assert (Houts : ∃ item,
    CountableList (Serializable_serialize TransactionOutput_fields) NUM_TXOS
      (outputs tx) = Ok item ∧
    ∃ e, encode_raw item = Ok e ∧ (length e ≤ 273)%nat).
  { apply CountableList_encodes; [done|].
    apply Forall_forall. intros o Hin.
    apply TransactionOutput_encodes.
    - by eapply Forall_forall in Ho.
    - by eapply (proj1 (Forall_forall _ _) Hbo). }
  destruct Hins as (it1 & Hit1 & He1), Houts as (it2 & Hit2 & He2).
  destruct (encode_raw_list_Ok [it1; it2] 273) as (e & He & Hlen).
  { by repeat constructor. }
  { rewrite LONG_LENGTH_value. simpl. lia. }
  assert (Henc : encoded tx = Ok e).
  { unfold encoded, rlp_encode, Serializable_serialize.
    unfold UnsignedTransaction_fields, Transaction_fields, attr.
    cbn [removelast comprehension snd]. rewrite Hit1, Hit2. simpl. exact He. }
  exists e. unfold confirmation_hash, merkle_leaf_data, hash. rewrite Henc.
  simpl in Hlen. repeat split; [lia|..]; done.
Qed.
End Encoding.

Section ConstructedEncodes.
Context `{Imports}.

(** X14. What the constructor returns can be encoded, and stays so:
    when [normalize_address] only returns 20-byte addresses and the
    integers given are from 0 up to 2^256 - 1, a constructed transaction
    is one the sedes accept, its encoding returns, and after any sequence
    of [sign] and [confirm] calls the encoding still returns the same
    bytes. *)
Theorem constructed_encodes ins outs sigs confs (tx : Transaction)
    (calls : list call) :
  (∀ a b, normalize_address a = Ok b → length b = 20%nat) →
  Forall (λ i : Z * Z * Z,
            0 ≤ i.1.1 < 2 ^ 256 ∧ 0 ≤ i.1.2 < 2 ^ 256 ∧ 0 ≤ i.2 < 2 ^ 256)
    (default [] ins) →
  Forall (λ o : bytes * Z, 0 ≤ o.2 < 2 ^ 256) (default [] outs) →
  Transaction_init ins outs sigs confs = Ok tx →
  serializable tx ∧
  ∃ e, encoded tx = Ok e ∧ encoded (run_calls tx calls) = Ok e.
Proof.
  intros Hnorm Hins Houts Hinit.
  destruct (Transaction_init_inv _ _ _ _ _ Hinit) as (Hli & Hlo & Hi & Ho & _).
  assert (Hin : Forall (λ i, (0 ≤ blknum i < 2 ^ 256) ∧ (0 ≤ txindex i < 2 ^ 256)
                             ∧ (0 ≤ oindex i < 2 ^ 256)) (inputs tx)).
  { rewrite Hi. apply Forall_fmap, Forall_app. split.
    - eapply Forall_impl; [exact Hins|]. by intros [[b t] o].
    - apply Forall_replicate. simpl. lia. }
  assert (Hout : Forall (λ o, length (owner o) = 20%nat ∧ 0 ≤ amount o < 2 ^ 256)
                   (outputs tx)).
  { apply comprehension_Forall2 in Ho.
    assert (Hsrc : Forall (λ o : bytes * Z, 0 ≤ o.2 < 2 ^ 256)
              (default [] outs ++
               replicate (NUM_TXOS - length (default [] outs)) DEFAULT_OUTPUT)).
    { apply Forall_app. split; [done|]. apply Forall_replicate. simpl. lia. }
    eapply Forall2_Forall_r; [exact Ho|].
    eapply Forall_impl; [exact Hsrc|]. intros o Ho' r Hor.
    apply TransactionOutput_init_Ok in Hor as [Hown Hamt].
    rewrite Hamt. split; [by eapply Hnorm | done]. }
  assert (Hser : serializable tx).
  { unfold serializable. rewrite Hi at 1.
    rewrite length_fmap, length_app, length_replicate.
    apply comprehension_length in Ho.
    rewrite length_app, length_replicate in Ho.
    split; [lia|]. split; [lia|]. split.
    - eapply Forall_impl; [exact Hin|]. intros i. unfold serializable_input. lia.
    - eapply Forall_impl; [exact Hout|]. intros o [Hl Ha].
      split; [by left | lia]. }
  split; [done|].
  destruct (encoded_returns tx Hser) as (e & He & _).
  - eapply Forall_impl; [exact Hin|]. simpl. lia.
  - eapply Forall_impl; [exact Hout|]. simpl. lia.
  - exists e. split; [done|]. rewrite <- He.
    apply encoded_ext; apply run_calls_inputs_outputs.
Qed.
End ConstructedEncodes.

(** ** The encoding determines the inputs and the outputs *)

Lemma rlp_item_nested_ind (P : rlp_item → Prop) :
  (∀ b, P (RBytes b)) →
  (∀ items, Forall P items → P (RList items)) →
  ∀ item, P item.
Proof.
  intros Hb Hl. fix IH 1. intros [b|items]; [apply Hb|].
  apply Hl. induction items as [|x items IHitems]; constructor.
  - apply IH.
  - apply IHitems.
Qed.

Lemma byte_value_range (c : byte) : 0 ≤ Z.of_N (Byte.to_N c) < 256.
Proof. pose proof (Byte.to_N_bounded c). lia. Qed.

Lemma byte_value_inj (c d : byte) :
  Z.of_N (Byte.to_N c) = Z.of_N (Byte.to_N d) → c = d.
Proof.
  intros Hcd. apply N2Z.inj in Hcd.
  pose proof (Byte.of_to_N c) as Hc. rewrite Hcd, Byte.of_to_N in Hc. congruence.
Qed.

Lemma byte_of_Z_inj (a b : Z) :
  0 ≤ a < 256 → 0 ≤ b < 256 → byte_of_Z a = byte_of_Z b → a = b.
Proof.
  intros Ha Hb Hab.
  rewrite <- (Z.mod_small a 256), <- (Z.mod_small b 256) by done.
  by rewrite <- !byte_of_Z_value, Hab.
Qed.

Lemma int_to_big_endian_inj (a b : Z) :
  0 ≤ a → 0 ≤ b → int_to_big_endian a = int_to_big_endian b → a = b.
Proof.
  intros Ha Hb Hab.
  by rewrite <- (big_endian_to_int_of_int a), <- (big_endian_to_int_of_int b), Hab.
Qed.

Lemma int_to_big_endian_aux_grows (fuel : nat) (n : Z) (acc : bytes) :
  (length acc ≤ length (int_to_big_endian_aux fuel n acc))%nat.
Proof.
  revert n acc. induction fuel as [|fuel IH]; intros n acc; simpl; [done|].
  destruct (n <=? 0); [done|].
  etrans; [|apply IH]. simpl. lia.
Qed.

Lemma int_to_big_endian_nonempty (n : Z) :
  0 < n → (1 ≤ length (int_to_big_endian n))%nat.
Proof.
  intros Hn. unfold int_to_big_endian. simpl.
  destruct (n <=? 0) eqn:Hz; [apply Z.leb_le in Hz; lia|].
  etrans; [|apply int_to_big_endian_aux_grows]. simpl. lia.
Qed.

Lemma length_prefix_inv (len offset : Z) (p : bytes) :
  0 ≤ len → length_prefix len offset = Ok p →
  (len < 56 ∧ p = [byte_of_Z (offset + len)]) ∨
  (56 ≤ len ∧ ∃ k : nat, (1 ≤ k ≤ 8)%nat ∧
     length (int_to_big_endian len) = k ∧
     p = byte_of_Z (offset + 55 + Z.of_nat k) :: int_to_big_endian len).
Proof.
  intros Hlen. unfold length_prefix.
  destruct (len <? 56) eqn:H56; [apply Z.ltb_lt in H56 | apply Z.ltb_ge in H56].
  - intros [= <-]. by left.
  - destruct (len <? LONG_LENGTH) eqn:Hlong; [|done]. apply Z.ltb_lt in Hlong.
    intros [= <-]. right. split; [done|].
    exists (length (int_to_big_endian len)). split.
    + pose proof (int_to_big_endian_nonempty len ltac:(lia)).
      pose proof (int_to_big_endian_length len 8 ltac:(done)). lia.
    + split; [done|]. do 2 f_equal. lia.
Qed.

(** A length prefix tells the kind of item and the length of its
    payload, whatever follows it. *)
Lemma length_prefix_determines (len1 len2 off1 off2 : Z) (p1 p2 r1 r2 : bytes) :
  0 ≤ len1 → 0 ≤ len2 →
  off1 = 128 ∨ off1 = 192 → off2 = 128 ∨ off2 = 192 →
  length_prefix len1 off1 = Ok p1 → length_prefix len2 off2 = Ok p2 →
  p1 ++ r1 = p2 ++ r2 →
  off1 = off2 ∧ len1 = len2 ∧ r1 = r2.
Proof.
  intros Hl1 Hl2 Ho1 Ho2 Hp1 Hp2 Heq.
  destruct (length_prefix_inv _ _ _ Hl1 Hp1)
    as [[Hs1 ->]|[Hg1 (k1 & Hk1 & Hlen1 & ->)]];
  destruct (length_prefix_inv _ _ _ Hl2 Hp2)
    as [[Hs2 ->]|[Hg2 (k2 & Hk2 & Hlen2 & ->)]];
  simpl in Heq; injection Heq as Hhead Htail;
  apply byte_of_Z_inj in Hhead; try lia.
  - split; [lia|]. split; [lia|done].
  - assert (k1 = k2) by lia. subst k2.
    apply app_inj_1 in Htail as [Hls ->]; [|congruence].
    apply int_to_big_endian_inj in Hls; [|lia..].
    split; [lia|]. done.
Qed.

Lemma length_prefix_head (len offset : Z) (p : bytes) :
  0 ≤ len → offset = 128 ∨ offset = 192 →
  length_prefix len offset = Ok p →
  ∃ c p', p = c :: p' ∧ 128 ≤ Z.of_N (Byte.to_N c).
Proof.
  intros Hlen Hoff Hp.
  destruct (length_prefix_inv _ _ _ Hlen Hp) as [[Hs ->]|[Hg (k & Hk & _ & ->)]];
    eexists _, _; (split; [done|]);
    rewrite byte_of_Z_value, Z.mod_small; lia.
Qed.

(** The two shapes of an encoding: a single byte below 128 standing for
    itself, or a length prefix followed by the payload. *)
Lemma encode_raw_inv (item : rlp_item) (e : bytes) :
  encode_raw item = Ok e →
  (∃ c, item = RBytes [c] ∧ Z.of_N (Byte.to_N c) < 128 ∧ e = [c]) ∨
  (∃ offset payload p,
     length_prefix (Z.of_nat (length payload)) offset = Ok p ∧ e = p ++ payload ∧
     ((offset = 128 ∧ item = RBytes payload ∧
       ∀ c, payload = [c] → 128 ≤ Z.of_N (Byte.to_N c)) ∨
      (offset = 192 ∧ ∃ items es, item = RList items ∧
         comprehension encode_raw items = Ok es ∧ payload = concat es))).
Proof.
  destruct item as [b|items]; cbn [encode_raw].
  - assert (Hgen : (∀ c, b = [c] → 128 ≤ Z.of_N (Byte.to_N c)) →
      (p ← length_prefix (Z.of_nat (length b)) 128; Ok (p ++ b)) = Ok e →
      ∃ offset payload p,
        length_prefix (Z.of_nat (length payload)) offset = Ok p ∧ e = p ++ payload ∧
        ((offset = 128 ∧ RBytes b = RBytes payload ∧
          ∀ c, payload = [c] → 128 ≤ Z.of_N (Byte.to_N c)) ∨
         (offset = 192 ∧ ∃ items es, RBytes b = RList items ∧
            comprehension encode_raw items = Ok es ∧ payload = concat es))).
    { intros Hbig. destruct (length_prefix _ 128) as [p|] eqn:Hp; simpl; [|done].
      intros [= <-]. exists 128, b, p. split; [done|]. split; [done|].
      left. by repeat split. }
    destruct b as [|c [|c' b]].
    + intros He. right. by apply Hgen.
    + destruct (Z.of_N (Byte.to_N c) <? 128) eqn:Hc;
        [apply Z.ltb_lt in Hc | apply Z.ltb_ge in Hc].
      * intros [= <-]. left. by exists c.
      * intros He. right. apply Hgen; [|done]. by intros ? [= <-].
    + intros He. right. by apply Hgen.
  - destruct (comprehension encode_raw items) as [es|] eqn:Hes; simpl; [|done].
    destruct (length_prefix _ 192) as [p|] eqn:Hp; simpl; [|done].
    intros [= <-]. right. exists 192, (concat es), p. split; [done|].
    split; [done|]. right. split; [done|]. by exists items, es.
Qed.

Lemma encode_raw_nonempty (item : rlp_item) (e : bytes) :
  encode_raw item = Ok e → e ≠ [].
Proof.
  intros [(c & _ & _ & ->)|(off & payload & p & Hp & -> & Hkind)]%encode_raw_inv;
    [done|].
  assert (Hoff : off = 128 ∨ off = 192)
    by (destruct Hkind as [[-> _]|[-> _]]; auto).
  by destruct (length_prefix_head _ off p (Nat2Z.is_nonneg _) Hoff Hp)
    as (c & p' & -> & _).
Qed.

(** No encoding is a proper prefix of another: an encoding followed by
    anything determines the item and what follows. *)
Lemma encode_raw_prefix_free (a : rlp_item) :
  ∀ b e1 e2 r1 r2,
    encode_raw a = Ok e1 → encode_raw b = Ok e2 → e1 ++ r1 = e2 ++ r2 →
    a = b ∧ r1 = r2.
Proof.
  assert (Hsmall_big : ∀ (c : byte) off (payload p r1 r2 : bytes),
    Z.of_N (Byte.to_N c) < 128 → off = 128 ∨ off = 192 →
    length_prefix (Z.of_nat (length payload)) off = Ok p →
    [c] ++ r1 = (p ++ payload) ++ r2 → False).
  { intros c off payload p r1 r2 Hc Hoff Hp Heq.
    destruct (length_prefix_head _ off p (Nat2Z.is_nonneg _) Hoff Hp)
      as (d & p' & -> & Hd).
    simpl in Heq. injection Heq as -> _. lia. }
  induction a as [ba|la IH] using rlp_item_nested_ind; intros b e1 e2 r1 r2 Ha Hb Heq.
  - apply encode_raw_inv in Ha as
      [(c & [= ->] & Hc & ->)|(off1 & pl1 & p1 & Hp1 & -> & Hk1)];
    apply encode_raw_inv in Hb as
      [(c' & -> & Hc' & ->)|(off2 & pl2 & p2 & Hp2 & -> & Hk2)].
    + by injection Heq as -> ->.
    + exfalso. eapply (Hsmall_big c off2); [done| |exact Hp2|exact Heq].
      destruct Hk2 as [[-> _]|[-> _]]; auto.
    + exfalso. eapply (Hsmall_big c' off1); [done| |exact Hp1|symmetry; exact Heq].
      destruct Hk1 as [[-> _]|[-> _]]; auto.
    + destruct Hk1 as [(-> & [= <-] & Hbig1)|(_ & ? & ? & ? & _)]; [|done].
      assert (Hoff2 : off2 = 128 ∨ off2 = 192)
        by (destruct Hk2 as [[-> _]|[-> _]]; auto).
      rewrite <- !app_assoc in Heq.
      destruct (length_prefix_determines _ _ _ _ _ _ _ _
                  (Nat2Z.is_nonneg _) (Nat2Z.is_nonneg _)
                  (or_introl eq_refl) Hoff2 Hp1 Hp2 Heq)
        as (<- & Hlen & Htail).
      destruct Hk2 as [(_ & -> & _)|(? & _)]; [|done].
      apply app_inj_1 in Htail as [-> ->]; [done|lia].
  - assert (Hlist : ∀ lb es1 es2,
      comprehension encode_raw la = Ok es1 →
      comprehension encode_raw lb = Ok es2 →
      concat es1 = concat es2 → la = lb).
    { clear Ha Hb Heq. induction IH as [|x la Hx _ IHla]; intros lb es1 es2.
      - intros [= <-]. destruct lb as [|y lb]; [done|]. simpl.
        destruct (encode_raw y) as [ey|] eqn:Hy; simpl; [|done].
        destruct (comprehension encode_raw lb); simpl; [|done].
        intros [= <-]. simpl. intros Hnil. symmetry in Hnil.
        apply app_eq_nil in Hnil as [-> _]. by apply encode_raw_nonempty in Hy.
      - simpl. destruct (encode_raw x) as [ex|] eqn:Hex; simpl; [|done].
        destruct (comprehension encode_raw la) as [es1'|] eqn:Hla; simpl; [|done].
        intros [= <-]. destruct lb as [|y lb]; simpl.
        + intros [= <-]. simpl. intros Hnil.
          apply app_eq_nil in Hnil as [-> _]. by apply encode_raw_nonempty in Hex.
        + destruct (encode_raw y) as [ey|] eqn:Hy; simpl; [|done].
          destruct (comprehension encode_raw lb) as [es2'|] eqn:Hlb; simpl; [|done].
          intros [= <-]. simpl. intros Hcat.
          destruct (Hx y ex ey _ _ eq_refl Hy Hcat) as [-> Hrest].
          f_equal. by eapply IHla. }
    apply encode_raw_inv in Ha as
      [(c & [=] & _)|(off1 & pl1 & p1 & Hp1 & -> & Hk1)].
    destruct Hk1 as [(_ & [=] & _)|(-> & la' & es1 & [= <-] & Hes1 & ->)].
    apply encode_raw_inv in Hb as
      [(c' & -> & Hc' & ->)|(off2 & pl2 & p2 & Hp2 & -> & Hk2)].
    + exfalso. eapply (Hsmall_big c' 192); [done|by right|exact Hp1|].
      symmetry. exact Heq.
    + assert (Hoff2 : off2 = 128 ∨ off2 = 192)
        by (destruct Hk2 as [[-> _]|[-> _]]; auto).
      rewrite <- !app_assoc in Heq.
      destruct (length_prefix_determines _ _ _ _ _ _ _ _
                  (Nat2Z.is_nonneg _) (Nat2Z.is_nonneg _)
                  (or_intror eq_refl) Hoff2 Hp1 Hp2 Heq)
        as (<- & Hlen & Htail).
      destruct Hk2 as [(? & _)|(_ & lb & es2 & -> & Hes2 & ->)]; [done|].
      apply app_inj_1 in Htail as [Hcat ->]; [|lia].
      split; [|done]. f_equal. by eapply Hlist.
Qed.

Lemma encode_raw_inj (a b : rlp_item) (e : bytes) :
  encode_raw a = Ok e → encode_raw b = Ok e → a = b.
Proof.
  intros Ha Hb.
  by destruct (encode_raw_prefix_free a b e e [] [] Ha Hb eq_refl).
Qed.

Lemma big_endian_int_inj (n1 n2 : Z) (item : rlp_item) :
  big_endian_int n1 = Ok item → big_endian_int n2 = Ok item → n1 = n2.
Proof.
  unfold big_endian_int.
  destruct (n1 <? 0) eqn:H1; [done|]. destruct (n2 <? 0) eqn:H2; [done|].
  apply Z.ltb_ge in H1, H2. intros [= <-] [= Heq].
  by apply int_to_big_endian_inj.
Qed.

Lemma address_inj (b1 b2 : bytes) (item : rlp_item) :
  address b1 = Ok item → address b2 = Ok item → b1 = b2.
Proof.
  unfold address. repeat case_bool_decide; try done. by intros [= <-] [= <-].
Qed.

Lemma comprehension_inj {A B} (f : A → result B) (l1 l2 : list A) (bs : list B) :
  (∀ x y b, f x = Ok b → f y = Ok b → x = y) →
  comprehension f l1 = Ok bs → comprehension f l2 = Ok bs → l1 = l2.
Proof.
  intros Hf H1%comprehension_Forall2 H2%comprehension_Forall2.
  revert l2 H2. induction H1 as [|x b l1 bs Hx _ IH]; intros l2 H2.
  - by inversion H2.
  - inversion H2 as [|y ? l2' ? Hy Hl2]; subst.
    f_equal; [by eapply Hf | by apply IH].
Qed.

Lemma CountableList_inj {A} (f : sedes A) (n : nat) (l1 l2 : list A) (item : rlp_item) :
  (∀ x y b, f x = Ok b → f y = Ok b → x = y) →
  CountableList f n l1 = Ok item → CountableList f n l2 = Ok item → l1 = l2.
Proof.
  intros Hf. unfold CountableList.
  case_bool_decide; [by destruct (comprehension f (take (S n) l1))|].
  case_bool_decide; [by destruct (comprehension f (take (S n) l2))|].
  destruct (comprehension f l1) as [bs1|] eqn:H1; simpl; [|done].
  destruct (comprehension f l2) as [bs2|] eqn:H2; simpl; [|done].
  intros [= <-] [= ->]. by eapply comprehension_inj.
Qed.

Lemma TransactionInput_serialize_inj (i1 i2 : TransactionInput) (item : rlp_item) :
  Serializable_serialize TransactionInput_fields i1 = Ok item →
  Serializable_serialize TransactionInput_fields i2 = Ok item → i1 = i2.
Proof.
  unfold Serializable_serialize, TransactionInput_fields, attr. simpl.
  destruct (big_endian_int (blknum i1)) as [a1|] eqn:Ha1; simpl; [|done].
  destruct (big_endian_int (txindex i1)) as [b1|] eqn:Hb1; simpl; [|done].
  destruct (big_endian_int (oindex i1)) as [c1|] eqn:Hc1; simpl; [|done].
  destruct (big_endian_int (blknum i2)) as [a2|] eqn:Ha2; simpl; [|done].
  destruct (big_endian_int (txindex i2)) as [b2|] eqn:Hb2; simpl; [|done].
  destruct (big_endian_int (oindex i2)) as [c2|] eqn:Hc2; simpl; [|done].
  intros [= <-] [= -> -> ->].
  destruct i1, i2; simpl in *. f_equal; by eapply big_endian_int_inj.
Qed.

Lemma TransactionOutput_serialize_inj (o1 o2 : TransactionOutput) (item : rlp_item) :
  Serializable_serialize TransactionOutput_fields o1 = Ok item →
  Serializable_serialize TransactionOutput_fields o2 = Ok item → o1 = o2.
Proof.
  unfold Serializable_serialize, TransactionOutput_fields, attr. simpl.
  destruct (address (owner o1)) as [a1|] eqn:Ha1; simpl; [|done].
  destruct (big_endian_int (amount o1)) as [b1|] eqn:Hb1; simpl; [|done].
  destruct (address (owner o2)) as [a2|] eqn:Ha2; simpl; [|done].
  destruct (big_endian_int (amount o2)) as [b2|] eqn:Hb2; simpl; [|done].
  intros [= <-] [= -> ->].
  destruct o1, o2; simpl in *.
  f_equal; [by eapply address_inj | by eapply big_endian_int_inj].
Qed.

Lemma encoded_inj (tx tx' : Transaction) (e : bytes) :
  encoded tx = Ok e → encoded tx' = Ok e →
  inputs tx = inputs tx' ∧ outputs tx = outputs tx'.
Proof.
  unfold encoded, rlp_encode, Serializable_serialize.
  unfold UnsignedTransaction_fields, Transaction_fields, attr.
  cbn [removelast comprehension snd].
  destruct (CountableList _ _ (inputs tx)) as [i1|] eqn:Hi1; simpl; [|done].
  destruct (CountableList _ _ (outputs tx)) as [o1|] eqn:Ho1; simpl; [|done].
  destruct (CountableList _ _ (inputs tx')) as [i2|] eqn:Hi2; simpl; [|done].
  destruct (CountableList _ _ (outputs tx')) as [o2|] eqn:Ho2; simpl; [|done].
  intros He He'.
  pose proof (encode_raw_inj (RList [i1; o1]) (RList [i2; o2]) e He He')
    as [= -> ->].
  split.
  - eapply CountableList_inj; [|exact Hi1|exact Hi2].
    apply TransactionInput_serialize_inj.
  - eapply CountableList_inj; [|exact Ho1|exact Ho2].
    apply TransactionOutput_serialize_inj.
Qed.

(** An encoding that returned is the encoding of an item. *)
Lemma encoded_item (tx : Transaction) (e : bytes) :
  encoded tx = Ok e → ∃ item, encode_raw item = Ok e.
Proof.
  unfold encoded, rlp_encode.
  destruct (Serializable_serialize _ tx) as [item|]; simpl; [|done].
  by exists item.
Qed.

Lemma concat_fixed_length_inj {A} (n : nat) (l1 l2 : list (list A)) :
  (0 < n)%nat →
  Forall (λ s, length s = n) l1 → Forall (λ s, length s = n) l2 →
  concat l1 = concat l2 → l1 = l2.
Proof.
  intros Hn H1. revert l2. induction H1 as [|s1 l1 Hs1 _ IH]; intros l2 H2 Hcat.
  - destruct H2 as [|s2 l2 Hs2 _]; [done|].
    simpl in Hcat. symmetry in Hcat. apply app_eq_nil in Hcat as [-> _].
    simpl in Hs2. lia.
  - destruct H2 as [|s2 l2 Hs2 H2].
    + simpl in Hcat. apply app_eq_nil in Hcat as [-> _]. simpl in Hs1. lia.
    + simpl in Hcat. apply app_inj_1 in Hcat as [-> Hcat]; [|congruence].
      f_equal. by apply IH.
Qed.

(** X15. The encoding is canonical: two records whose encodings return
    the same bytes have the same inputs and the same outputs.  With C1,
    two records that encode have equal encodings exactly when their
    inputs and outputs are equal. *)
Theorem encoded_determines_inputs_and_outputs (tx tx' : Transaction) (e : bytes) :
  encoded tx = Ok e →
  (encoded tx' = Ok e ↔ inputs tx = inputs tx' ∧ outputs tx = outputs tx').
Proof.
  intros He. split.
  - intros He'. by eapply encoded_inj.
  - intros [Hi Ho]. rewrite <- He. by apply encoded_ext.
Qed.

(** X16. The Merkle leaf data can be read in one way only.  Two records
    with the same leaf data have the same inputs, the same outputs and the
    same joined signatures, since no encoding is the start of a longer
    one; when in both every signature has one fixed non-zero length, the
    signature lists are the same too. *)
Theorem merkle_leaf_data_unambiguous (tx tx' : Transaction) (leaf : bytes) (n : nat) :
  merkle_leaf_data tx = Ok leaf → merkle_leaf_data tx' = Ok leaf →
  inputs tx = inputs tx' ∧ outputs tx = outputs tx' ∧
  joined_signatures tx = joined_signatures tx' ∧
  ((0 < n)%nat →
   Forall (λ s, length s = n) (signatures tx) →
   Forall (λ s, length s = n) (signatures tx') →
   signatures tx = signatures tx').
Proof.
  unfold merkle_leaf_data.
  destruct (encoded tx) as [e|] eqn:He; simpl; [|done].
  destruct (encoded tx') as [e'|] eqn:He'; simpl; [|done].
  intros [= <-] [= Hleaf].
  destruct (encoded_item tx e He) as [item Hitem].
  destruct (encoded_item tx' e' He') as [item' Hitem'].
  destruct (encode_raw_prefix_free item' item e' e _ _ Hitem' Hitem Hleaf)
    as [-> Hjoined].
  assert (e' = e) as -> by congruence.
  destruct (encoded_inj tx tx' e He He') as [Hi Ho].
  repeat split; [done..|].
  intros Hn Hs Hs'. by eapply concat_fixed_length_inj.
Qed.

(** ** Concrete runs *)

Section Runs.
#[local] Existing Instance Sample.imports.

Lemma encoded_ignores_signatures_and_confirmations_run :
  inputs Sample.tx0_later = inputs Sample.tx0 ∧
  outputs Sample.tx0_later = outputs Sample.tx0 ∧
  encoded Sample.tx0_later = encoded Sample.tx0 ∧
  hash Sample.tx0_later = hash Sample.tx0.
Proof.
  split; [reflexivity|]. split; [reflexivity|].
  apply (proj1 (encoded_ignores_signatures_and_confirmations
                  Sample.tx0 [] [] 0 [] [])); reflexivity.
Defined.

Lemma Transaction_slot_counts_run :
  Transaction_init (Some [(1, 2, 3)]) (Some [(Sample.owner1, 1000)])
                   (Some [[x01]]) None = Ok Sample.tx1 ∧
  length (inputs Sample.tx1) = NUM_TXOS ∧
  length (outputs Sample.tx1) = NUM_TXOS ∧
  length (spent Sample.tx1) = NUM_TXOS ∧
  signatures Sample.tx1 = [[x01]] ∧
  confirmations Sample.tx1 = [NULL_SIGNATURE; NULL_SIGNATURE] ∧
  length (signatures Sample.tx1) = 1%nat ∧
  length (confirmations Sample.tx1) = NUM_TXOS ∧
  slot_counts (run_calls Sample.tx1
                 [call_sign 0 Sample.key1; call_confirm 5 Sample.key1])
    = slot_counts Sample.tx1.
Proof.
  split; [reflexivity|].
  apply (Transaction_slot_counts (Some [(1, 2, 3)]) (Some [(Sample.owner1, 1000)])
           (Some [[x01]]) None Sample.tx1
           [call_sign 0 Sample.key1; call_confirm 5 Sample.key1]).
  reflexivity.
Defined.

(** C3, as stated, fails: a transaction constructed with one
    caller-supplied signature has one signature slot, not [NUM_TXOS]. *)
Lemma one_signature_is_one_slot :
  Transaction_init (Some [(1, 2, 3)]) (Some [(Sample.owner1, 1000)])
                   (Some [[x01]]) None = Ok Sample.tx1 ∧
  length (signatures Sample.tx1) = 1%nat ∧
  length (signatures Sample.tx1) ≠ NUM_TXOS.
Proof. split; [reflexivity|]. split; [reflexivity|]. discriminate. Qed.

Lemma merkle_leaf_data_two_slots_run :
  encoded Sample.tx0 = Ok Sample.e0 ∧
  signatures Sample.tx0 = [replicate 65 x00; replicate 65 x00] ∧
  joined_signatures Sample.tx0 = replicate 65 x00 ++ replicate 65 x00 ∧
  merkle_leaf_data Sample.tx0 =
    Ok (Sample.e0 ++ replicate 65 x00 ++ replicate 65 x00).
Proof.
  split; [reflexivity|]. split; [reflexivity|].
  apply (merkle_leaf_data_two_slots Sample.tx0 Sample.e0); reflexivity.
Defined.

Lemma Transaction_init_pads_or_raises_run :
  Transaction_init (Some [(1, 0, 0); (2, 0, 0); (3, 0, 0)]) (Some []) None None
    = Raise ValueError ∧
  Transaction_init (Some [(1, 2, 3)])
    (Some [(Sample.owner1, 1); (Sample.owner1, 2); (Sample.owner1, 3)]) None None
    = Raise ValueError ∧
  ∃ tx, Transaction_init (Some [(1, 2, 3)]) (Some [(Sample.owner1, 1000)]) None None
          = Ok tx ∧
    inputs tx = [{| blknum := 1; txindex := 2; oindex := 3 |}; Sample.zero_input] ∧
    outputs tx = [{| owner := Sample.owner1; amount := 1000 |}; Sample.null_output] ∧
    inputs tx !! 1%nat = Some Sample.zero_input.
Proof.
  split; [|split].
  - apply (proj1 (Transaction_init_pads_or_raises
             [(1, 0, 0); (2, 0, 0); (3, 0, 0)] [] None None)).
    unfold NUM_TXOS. simpl. lia.
  - apply (proj1 (proj2 (Transaction_init_pads_or_raises [(1, 2, 3)]
             [(Sample.owner1, 1); (Sample.owner1, 2); (Sample.owner1, 3)]
             None None))).
    unfold NUM_TXOS. simpl. lia.
  - destruct (Transaction_init_pads_or_raises [(1, 2, 3)] [(Sample.owner1, 1000)]
                None None) as (_ & _ & Hpad).
    destruct (Hpad [{| owner := Sample.owner1; amount := 1000 |}])
      as (tx & Htx & Hi & Ho & Hslot);
      [unfold NUM_TXOS; simpl; lia | unfold NUM_TXOS; simpl; lia
      | reflexivity | reflexivity |].
    exists tx. split; [exact Htx|]. split; [exact Hi|]. split; [exact Ho|].
    apply Hslot. reflexivity.
Defined.

Lemma Transaction_init_empty_is_omitted_run :
  normalize_address NULL_ADDRESS = Ok NULL_ADDRESS ∧
  Transaction_init (Some []) (Some []) (Some []) (Some []) =
    Transaction_init None None None None ∧
  Transaction_init None None None None = Ok Sample.tx0.
Proof.
  split; [reflexivity|].
  exact (proj2 Transaction_init_empty_is_omitted eq_refl).
Defined.

Lemma is_deposit_run :
  Transaction_init (Some []) None None None = Ok Sample.tx0 ∧
  is_deposit Sample.tx0 = true ∧
  ∃ tx', Transaction_init None None (Some [[x01]]) None = Ok tx' ∧
         is_deposit tx' = true.
Proof.
  destruct (is_deposit_iff_all_blknum_zero Sample.tx0) as (_ & Hdep & Hret).
  split; [reflexivity|]. split.
  - apply (Hdep (Some []) None None None); reflexivity.
  - apply (Hret None (Some [[x01]]) None); reflexivity.
Defined.

Lemma signers_by_slot_run :
  hash Sample.tx0 = Ok Sample.h0 ∧
  sign Sample.h0 Sample.key1 = Ok Sample.s0 ∧
  Sample.s0 ≠ NULL_SIGNATURE ∧
  get_signer Sample.h0 Sample.s0 = Ok Sample.key1 ∧
  signatures Sample.tx0 = [NULL_SIGNATURE; NULL_SIGNATURE] ∧
  ∃ tx', Transaction_sign Sample.tx0 0 Sample.key1 = (Ok (), tx') ∧
         signers tx' = Ok [Sample.key1; NULL_ADDRESS].
Proof.
  assert (Hne : Sample.s0 ≠ NULL_SIGNATURE) by discriminate.
  split; [reflexivity|]. split; [reflexivity|]. split; [exact Hne|].
  split; [reflexivity|]. split; [reflexivity|].
  apply (signers_by_slot Sample.tx0 Sample.key1 Sample.h0 Sample.s0 Sample.key1
           NULL_SIGNATURE); (exact Hne || reflexivity).
Defined.

Lemma sign_confirm_change_one_slot_run :
  (Transaction_sign Sample.tx0 1 Sample.key1).1 = Ok () ∧
  signatures (Transaction_sign Sample.tx0 1 Sample.key1).2 !! 1%nat = Some Sample.s0 ∧
  signatures (Transaction_sign Sample.tx0 1 Sample.key1).2 !! 0%nat
    = signatures Sample.tx0 !! 0%nat ∧
  (Transaction_confirm Sample.tx0 1 Sample.key1).1 = Ok () ∧
  confirmations (Transaction_confirm Sample.tx0 1 Sample.key1).2 !! 1%nat
    = Some Sample.c0 ∧
  confirmations (Transaction_confirm Sample.tx0 1 Sample.key1).2 !! 0%nat
    = confirmations Sample.tx0 !! 0%nat.
Proof.
  destruct (sign_confirm_change_one_slot Sample.tx0 1 Sample.key1)
    as (_ & _ & Hother & Hsign & Hconfirm).
  destruct (Hsign Sample.h0 Sample.s0) as [Hs1 Hs2];
    [simpl; lia | reflexivity | reflexivity |].
  destruct (Hconfirm (Sample.sha3 Sample.h0) Sample.c0) as [Hc1 Hc2];
    [simpl; lia | reflexivity | reflexivity |].
  destruct (Hother ltac:(lia) 0%nat ltac:(discriminate)) as [Ho1 Ho2].
  repeat split; assumption.
Defined.



Lemma pad_list_result_run :
  pad_list [7; 8] 0 5%nat = Ok [7; 8; 0; 0; 0] ∧
  length [7; 8; 0; 0; 0] = 5%nat ∧
  take 2 [7; 8; 0; 0; 0] = [7; 8] ∧
  [7; 8; 0; 0; 0] !! 3%nat = Some 0 ∧
  pad_list [7; 8; 9] 0 2%nat = Raise ValueError.
Proof.
  destruct (pad_list_result [7; 8] 0 5%nat) as [_ Hok].
  destruct (Hok [7; 8; 0; 0; 0] eq_refl) as (Hlen & Htake & Hpad).
  split; [reflexivity|]. split; [exact Hlen|]. split; [exact Htake|].
  split; [apply Hpad; simpl; lia|].
  apply (proj1 (pad_list_result [7; 8; 9] 0 2%nat)). simpl. lia.
Defined.

Lemma pad_list_stable_run :
  pad_list [7; 8] 0 3%nat = Ok [7; 8; 0] ∧
  pad_list [7; 8; 0] 1 3%nat = Ok [7; 8; 0].
Proof.
  split; [reflexivity|].
  apply (proj2 (pad_list_stable [7; 8] [7; 8; 0] 0 1 3%nat)). reflexivity.
Defined.

Lemma sign_confirm_compose_run :
  hash Sample.tx0 = Ok Sample.h0 ∧
  sign Sample.h0 Sample.key2 = Ok Sample.s0' ∧
  (Transaction_sign (Transaction_sign Sample.tx0 0 Sample.key1).2 0 Sample.key2).2
    = (Transaction_sign Sample.tx0 0 Sample.key2).2 ∧
  signatures (Transaction_sign Sample.tx0 0 Sample.key2).2
    = [Sample.s0'; NULL_SIGNATURE] ∧
  (Transaction_sign (Transaction_sign Sample.tx0 0 Sample.key1).2 1 Sample.key2).2
    = (Transaction_sign (Transaction_sign Sample.tx0 1 Sample.key2).2 0 Sample.key1).2.
Proof.
  destruct (sign_confirm_compose Sample.tx0 0 0 Sample.key1 Sample.key2)
    as (Hlast & _ & _).
  destruct (sign_confirm_compose Sample.tx0 0 1 Sample.key1 Sample.key2)
    as (_ & Hswap & _).
  split; [reflexivity|]. split; [reflexivity|].
  split; [apply (Hlast Sample.h0 Sample.s0'); reflexivity|].
  split; [reflexivity|].
  apply Hswap; lia.
Defined.

Lemma sign_confirm_index_from_end_run :
  0 ≤ 1 < Z.of_nat (length (signatures Sample.tx0)) ∧
  Transaction_sign Sample.tx0 (-1) Sample.key1
    = Transaction_sign Sample.tx0 1 Sample.key1 ∧
  Transaction_confirm Sample.tx0 (-2) Sample.key1
    = Transaction_confirm Sample.tx0 0 Sample.key1.
Proof.
  split; [simpl; lia|]. split.
  - apply (proj1 (sign_confirm_index_from_end Sample.tx0 1 Sample.key1)).
    simpl. lia.
  - apply (proj2 (sign_confirm_index_from_end Sample.tx0 0 Sample.key1)).
    simpl. lia.
Defined.

Lemma signers_of_unsigned_run :
  Forall (λ sig, sig = NULL_SIGNATURE) (signatures Sample.tx_negative) ∧
  hash Sample.tx_negative = Raise SerializationError ∧
  signers Sample.tx_negative = Ok [NULL_ADDRESS; NULL_ADDRESS].
Proof.
  assert (Hnull : Forall (λ sig, sig = NULL_SIGNATURE)
                    (signatures Sample.tx_negative))
    by (repeat constructor).
  split; [exact Hnull|]. split; [reflexivity|].
  apply (proj2 (signers_of_unsigned Sample.tx_negative) Hnull).
Defined.

Lemma sign_updates_one_signer_run :
  hash Sample.tx0 = Ok Sample.h0 ∧
  sign Sample.h0 Sample.key1 = Ok Sample.s0 ∧
  Sample.s0 ≠ NULL_SIGNATURE ∧
  get_signer Sample.h0 Sample.s0 = Ok Sample.key1 ∧
  signers Sample.tx0 = Ok [NULL_ADDRESS; NULL_ADDRESS] ∧
  0 ≤ 1 < Z.of_nat (length (signatures Sample.tx0)) ∧
  signers (Transaction_sign Sample.tx0 1 Sample.key1).2
    = Ok [NULL_ADDRESS; Sample.key1].
Proof.
  assert (Hne : Sample.s0 ≠ NULL_SIGNATURE) by discriminate.
  split; [reflexivity|]. split; [reflexivity|]. split; [exact Hne|].
  split; [reflexivity|]. split; [reflexivity|]. split; [simpl; lia|].
  apply (sign_updates_one_signer Sample.tx0 1 Sample.key1 Sample.h0 Sample.s0
           Sample.key1 [NULL_ADDRESS; NULL_ADDRESS]);
    first [ exact Hne | reflexivity | simpl; lia ].
Defined.

Lemma sign_confirm_raise_before_index_run :
  encoded Sample.tx_negative = Raise SerializationError ∧
  Transaction_sign Sample.tx_negative 7 Sample.key1
    = (Raise SerializationError, Sample.tx_negative) ∧
  Transaction_confirm Sample.tx_negative 0 Sample.key1
    = (Raise SerializationError, Sample.tx_negative) ∧
  hash Sample.tx0 = Ok Sample.h0 ∧
  sign Sample.h0 [] = Raise SignatureError ∧
  Transaction_sign Sample.tx0 7 [] = (Raise SignatureError, Sample.tx0).
Proof.
  destruct (sign_confirm_raise_before_index Sample.tx_negative 7 Sample.key1
              SerializationError) as (Henc & _ & _).
  destruct (Henc eq_refl) as (_ & _ & _ & Hsign & _).
  destruct (sign_confirm_raise_before_index Sample.tx_negative 0 Sample.key1
              SerializationError) as (Henc0 & _ & _).
  destruct (Henc0 eq_refl) as (_ & _ & _ & _ & Hconfirm).
  destruct (sign_confirm_raise_before_index Sample.tx0 7 [] SignatureError)
    as (_ & Hkey & _).
  split; [reflexivity|]. split; [exact Hsign|]. split; [exact Hconfirm|].
  split; [reflexivity|]. split; [reflexivity|].
  apply (Hkey Sample.h0); reflexivity.
Defined.

Lemma constructed_is_deposit_run :
  Transaction_init (Some [(1, 2, 3)]) (Some [(Sample.owner1, 1000)])
                   (Some [[x01]]) None = Ok Sample.tx1 ∧
  is_deposit Sample.tx1 = false.
Proof.
  split; [reflexivity|].
  apply (constructed_is_deposit (Some [(1, 2, 3)]) (Some [(Sample.owner1, 1000)])
           (Some [[x01]]) None Sample.tx1).
  reflexivity.
Defined.

Lemma Transaction_init_raises_run :
  normalize_address Sample.short_owner = Raise AddressError ∧
  Transaction_init (Some []) (Some [(Sample.owner1, 5); (Sample.short_owner, 6)])
                   None None = Raise AddressError.
Proof.
  split; [reflexivity|].
  apply (proj2 (Transaction_init_raises []
                  [(Sample.owner1, 5); (Sample.short_owner, 6)] None None
                  AddressError)).
  right. split; [unfold NUM_TXOS; simpl; lia|]. split; [unfold NUM_TXOS; simpl; lia|].
  exists [(Sample.owner1, 5)], (Sample.short_owner, 6), [].
  split; [reflexivity|]. split; [reflexivity|].
  repeat constructor. by exists Sample.owner1.
Defined.

Lemma Transaction_init_keeps_what_is_given_run :
  Transaction_init (Some [(1, 2, 3)]) (Some [(Sample.owner1, 1000)])
                   (Some [[x01]]) (Some [[x02]; [x03]; [x04]])
    = Ok (set_confirmations [[x02]; [x03]; [x04]] Sample.tx1) ∧
  signatures (set_confirmations [[x02]; [x03]; [x04]] Sample.tx1) = [[x01]] ∧
  confirmations (set_confirmations [[x02]; [x03]; [x04]] Sample.tx1)
    = [[x02]; [x03]; [x04]] ∧
  joined_confirmations (set_confirmations [[x02]; [x03]; [x04]] Sample.tx1)
    = [x02; x03; x04].
Proof.
  assert (Hinit :
    Transaction_init (Some [(1, 2, 3)]) (Some [(Sample.owner1, 1000)])
                     (Some [[x01]]) (Some [[x02]; [x03]; [x04]])
    = Ok (set_confirmations [[x02]; [x03]; [x04]] Sample.tx1)) by reflexivity.
  destruct (Transaction_init_keeps_what_is_given (Some [(1, 2, 3)])
              [(Sample.owner1, 1000)] [[x01]] [[x02]; [x03]; [x04]]
              (set_confirmations [[x02]; [x03]; [x04]] Sample.tx1) Hinit)
    as (Hs & Hc & _).
  destruct (Hs ltac:(discriminate)) as [Hs1 _].
  destruct (Hc ltac:(discriminate)) as [Hc1 Hc2].
  split; [exact Hinit|]. split; [exact Hs1|]. split; [exact Hc1|]. exact Hc2.
Defined.

Lemma encoded_raises_iff_not_serializable_run :
  ¬ serializable Sample.tx_negative ∧
  encoded Sample.tx_negative = Raise SerializationError.
Proof.
  assert (Hns : ¬ serializable Sample.tx_negative).
  { intros (_ & _ & Hi & _). apply Forall_cons in Hi as [[Hb _] _].
    simpl in Hb. lia. }
  split; [exact Hns|].
  apply (proj1 (encoded_raises_iff_not_serializable Sample.tx_negative)), Hns.
Defined.

Lemma encoded_returns_run :
  serializable Sample.tx0 ∧
  encoded Sample.tx0 = Ok Sample.e0 ∧
  (length Sample.e0 ≤ 555)%nat ∧
  hash Sample.tx0 = Ok Sample.h0.
Proof.
  assert (Hs : serializable Sample.tx0).
  { unfold serializable, NUM_TXOS. simpl.
    split; [lia|]. split; [lia|].
    split; repeat constructor; simpl; lia. }
  split; [exact Hs|].
  destruct (encoded_returns Sample.tx0 Hs) as (e & He & Hlen & Hh & _).
  - repeat constructor; simpl; lia.
  - repeat constructor; simpl; lia.
  - assert (e = Sample.e0) as -> by (change (encoded Sample.tx0) with (Ok Sample.e0) in He; congruence).
    split; [exact He|]. split; [exact Hlen|]. exact Hh.
Defined.

Lemma constructed_encodes_run :
  Transaction_init (Some [(1, 2, 3)]) (Some [(Sample.owner1, 1000)])
                   (Some [[x01]]) None = Ok Sample.tx1 ∧
  serializable Sample.tx1 ∧
  ∃ e, encoded Sample.tx1 = Ok e ∧
       encoded (run_calls Sample.tx1
                  [call_sign 0 Sample.key1; call_confirm (-1) Sample.key2]) = Ok e.
Proof.
  split; [reflexivity|].
  apply (constructed_encodes (Some [(1, 2, 3)]) (Some [(Sample.owner1, 1000)])
           (Some [[x01]]) None Sample.tx1
           [call_sign 0 Sample.key1; call_confirm (-1) Sample.key2]).
  - intros a b. simpl. unfold Sample.normalize_address.
    case_bool_decide; [|discriminate]. by intros [= <-].
  - repeat constructor; simpl; lia.
  - repeat constructor; simpl; lia.
  - reflexivity.
Defined.

Lemma encoded_determines_inputs_and_outputs_run :
  encoded Sample.tx0 = Ok Sample.e0 ∧
  encoded Sample.tx0_later = Ok Sample.e0 ∧
  inputs Sample.tx0 = inputs Sample.tx0_later ∧
  outputs Sample.tx0 = outputs Sample.tx0_later.
Proof.
  split; [reflexivity|]. split; [reflexivity|].
  apply (proj1 (encoded_determines_inputs_and_outputs
                  Sample.tx0 Sample.tx0_later Sample.e0 eq_refl)).
  reflexivity.
Defined.

Lemma merkle_leaf_data_unambiguous_run :
  merkle_leaf_data Sample.tx0
    = Ok (Sample.e0 ++ replicate 65 x00 ++ replicate 65 x00) ∧
  merkle_leaf_data (set_confirmations [] Sample.tx0)
    = Ok (Sample.e0 ++ replicate 65 x00 ++ replicate 65 x00) ∧
  inputs Sample.tx0 = inputs (set_confirmations [] Sample.tx0) ∧
  signatures Sample.tx0 = signatures (set_confirmations [] Sample.tx0).
Proof.
  destruct (merkle_leaf_data_unambiguous Sample.tx0
              (set_confirmations [] Sample.tx0)
              (Sample.e0 ++ replicate 65 x00 ++ replicate 65 x00) 65
              eq_refl eq_refl) as (Hi & _ & _ & Hs).
  split; [reflexivity|]. split; [reflexivity|]. split; [exact Hi|].
  apply Hs; [lia | repeat constructor | repeat constructor].
Defined.
End Runs.
